(** * loco: distance aggregation and ranking of places to stay

    A shallow embedding of the aggregation ([calculateDistances], with
    [fetchMapBoxDirectionsMatrix]) and of the ranking done in
    [PlacesToStayDisplay] of [frontend/src/App.tsx].

    JavaScript numbers are IEEE-754 binary64 values: they are modelled by the
    primitive [float] of the Standard Library, whose operations are the
    processor's, so that every arithmetic step of the source is evaluated
    with its rounding.  Objects used as dictionaries are finite maps. *)

From Stdlib Require Import ZArith Floats Bool Lia.
From Stdlib Require Uint63.
From stdpp Require Import gmap strings list sorting.

Set Warnings "-inexact-float".

Local Open Scope Z_scope.

(** ** Data model (the [type] declarations of App.tsx) *)

Abbreviation number := float.

Record LatLon := { lat : number; lon : number }.

Record Location := {
  coordinates : LatLon;
  address : string;
  placeName : option string;
}.

Inductive DistanceCalculationMode := average | cumulative.

Inductive TransportProfile := walking | driving_traffic | cycling.

Module PointOfInterest.
Record t := {
  id : string;
  name : string;
  location : Location;
  note : option string;
  url : option string;
}.
End PointOfInterest.

(** The value type of [distancesToPOIs]: [{ distance: number; duration: number }]. *)
Record PoiDistance := { distance : number; duration : number }.

Module PlaceToStay.
Record t := {
  id : string;
  name : string;
  location : Location;
  note : option string;
  url : option string;
  averageDistance : option number;
  cumulativeDistance : option number;
  averageTime : option number;
  cumulativeTime : option number;
  distancesToPOIs : option (gmap string PoiDistance);
}.
End PlaceToStay.

(** The React state variables read and written by the two functions. *)
Record AppState := {
  pointsOfInterest : list PointOfInterest.t;
  placesToStay : list PlaceToStay.t;
  distanceMode : DistanceCalculationMode;
  transportProfile : TransportProfile;
}.

(** ** JavaScript values met in the matrix response *)

(** A cell of the response is a JSON number or [null]; reading an array past
    its end gives [undefined]. *)
Inductive jsval := JNumber (x : number) | JNull | JUndefined.

(** The conversion applied by [/] to its left operand. *)
Definition ToNumber (v : jsval) : number :=
  match v with
  | JNumber x => x
  | JNull => 0%float
  | JUndefined => nan
  end.

Abbreviation matrix := (list (list jsval)).

(** [row[k]]: a read past the end of the row yields [undefined]. *)
Definition cell (row : list jsval) (k : nat) : jsval :=
  default JUndefined (row !! k).

(** The response body; [distances] and [durations] are optional properties. *)
Record MatrixBody := {
  distances : option matrix;
  durations : option matrix;
}.

(** What the code throws or lets through:
    - [MapiError]: a rejection of [.send()] by the Mapbox client;
    - [HttpErrorFromMapBox]: the
      [new Error(`HTTP error from MapBox! status: ${statusCode}`)] of
      [fetchMapBoxDirectionsMatrix];
    - [TypeError]: a property read on [undefined]. *)
Inductive JsError :=
| MapiError (message : string)
| HttpErrorFromMapBox (statusCode : Z)
| TypeError.

Inductive result (A : Type) := Ok (a : A) | Throw (e : JsError).
Arguments Ok {A} a.
Arguments Throw {A} e.

(** ** The routing provider and the observable effects *)

Inductive Annotation := ann_duration | ann_distance.

(** The argument of [matrixClient.getMatrix]; a point is [[lon, lat]]. *)
Record MatrixRequest := {
  req_profile : TransportProfile;
  req_annotations : list Annotation;
  req_points : list (number * number);
}.

(** The outcome of [matrixClient.getMatrix(...).send()]. *)
Inductive SendResult :=
| SendRejected (e : JsError)
| SendResolved (statusCode : Z) (body : MatrixBody).

Inductive Event :=
| GetMatrix (req : MatrixRequest)
| ConsoleError (e : JsError).

(** Computations that log their observable effects and may throw. *)
Definition M (A : Type) : Type := list Event * result A.

Definition bind {A B} (c : M A) (k : A -> M B) : M B :=
  match c with
  | (log, Ok a) => let '(log', r) := k a in (log ++ log', r)
  | (log, Throw e) => (log, Throw e)
  end.

Definition lift {A} (r : result A) : M A := ([], r).

(** Sequencing inside a callback, where nothing is logged. *)
Definition rbind {A B} (r : result A) (k : A -> result B) : result B :=
  match r with
  | Ok a => k a
  | Throw e => Throw e
  end.

(** ** The aggregation ([calculateDistances]) *)

(** [array.length] as a number (lengths are below 2^32, hence exact). *)
Definition length_number {A} (l : list A) : number :=
  PrimFloat.of_uint63 (Uint63.of_Z (Z.of_nat (length l))).

(** [distances[placeIndex]]: the row, on which a property is read next;
    that read throws when the row is [undefined]. *)
Definition row_of (m : matrix) (placeIndex : nat) : result (list jsval) :=
  match m !! placeIndex with
  | Some row => Ok row
  | None => Throw TypeError
  end.

(** The three locals the [forEach] callback updates. *)
Record Totals := {
  acc_distancesToPOIs : gmap string PoiDistance;
  totalDistance : number;
  totalTime : number;
}.

Definition Totals0 : Totals :=
  {| acc_distancesToPOIs := ∅; totalDistance := 0%float; totalTime := 0%float |}.

(** The body of [pointsOfInterest.forEach((poi, poiIndex) => ...)]. *)
Definition forEach_body (dist dur : matrix) (placesToStayCount placeIndex : nat)
    (poi : PointOfInterest.t) (poiIndex : nat) (acc : Totals) : result Totals :=
  let matrixIndex := (placesToStayCount + poiIndex)%nat in
  rbind (row_of dist placeIndex) (fun drow =>
  let distance := (ToNumber (cell drow matrixIndex) / 1000 * 0.621371)%float in
  rbind (row_of dur placeIndex) (fun trow =>
  let duration := (ToNumber (cell trow matrixIndex) / 60)%float in
  Ok {| acc_distancesToPOIs :=
          <[PointOfInterest.id poi := {| distance := distance; duration := duration |}]>
            (acc_distancesToPOIs acc);
        totalDistance := (totalDistance acc + distance)%float;
        totalTime := (totalTime acc + duration)%float |})).

(** [Array.prototype.forEach] with a callback that may throw; [k] is the
    index of the head of [l]. *)
Fixpoint forEach {A T} (f : A -> nat -> T -> result T) (k : nat) (l : list A) (s : T)
    : result T :=
  match l with
  | [] => Ok s
  | x :: l' => rbind (f x k s) (forEach f (S k) l')
  end.

(** [Array.prototype.map] with a callback that may throw. *)
Fixpoint mapi {A B} (f : A -> nat -> result B) (k : nat) (l : list A) : result (list B) :=
  match l with
  | [] => Ok []
  | x :: l' => rbind (f x k) (fun y => rbind (mapi f (S k) l') (fun ys => Ok (y :: ys)))
  end.

(** The callback of [placesToStay.map((place, placeIndex) => ...)]. *)
Definition updatePlace (dist dur : matrix) (pois : list PointOfInterest.t)
    (placesToStayCount : nat) (place : PlaceToStay.t) (placeIndex : nat)
    : result PlaceToStay.t :=
  rbind (forEach (forEach_body dist dur placesToStayCount placeIndex) 0 pois Totals0)
    (fun acc =>
  Ok {| PlaceToStay.id := PlaceToStay.id place;
        PlaceToStay.name := PlaceToStay.name place;
        PlaceToStay.location := PlaceToStay.location place;
        PlaceToStay.note := PlaceToStay.note place;
        PlaceToStay.url := PlaceToStay.url place;
        PlaceToStay.distancesToPOIs := Some (acc_distancesToPOIs acc);
        PlaceToStay.averageDistance := Some (totalDistance acc / length_number pois)%float;
        PlaceToStay.cumulativeDistance := Some (totalDistance acc);
        PlaceToStay.averageTime := Some (totalTime acc / length_number pois)%float;
        PlaceToStay.cumulativeTime := Some (totalTime acc) |}).

(** The array sent to the provider. *)
Definition allLocations (st : AppState) : list LatLon :=
  ((fun place => coordinates (PlaceToStay.location place)) <$> placesToStay st)
  ++ ((fun poi => coordinates (PointOfInterest.location poi)) <$> pointsOfInterest st).

Definition setPlacesToStay (ps : list PlaceToStay.t) (st : AppState) : AppState :=
  {| pointsOfInterest := pointsOfInterest st;
     placesToStay := ps;
     distanceMode := distanceMode st;
     transportProfile := transportProfile st |}.

Section Provider.

(** The Mapbox matrix client, an external collaborator. *)
Variable send : MatrixRequest -> SendResult.

Definition fetchMapBoxDirectionsMatrix
    (locations : list LatLon) (profile : TransportProfile) : M MatrixBody :=
  let req := {| req_profile := profile;
                req_annotations := [ann_duration; ann_distance];
                req_points := (fun l => (lon l, lat l)) <$> locations |} in
  match send req with
  | SendRejected e => ([GetMatrix req], Throw e)
  | SendResolved statusCode body =>
      if negb (statusCode =? 200)
      then ([GetMatrix req], Throw (HttpErrorFromMapBox statusCode))
      else ([GetMatrix req], Ok body)
  end.

(** The [try] block of [calculateDistances], up to [setPlacesToStay];
    [x || []] on an optional array is the array, or [[]] when it is absent. *)
Definition aggregate (st : AppState) : M (list PlaceToStay.t) :=
  bind (fetchMapBoxDirectionsMatrix (allLocations st) (transportProfile st))
    (fun matrixResponse =>
  let dist := default [] (distances matrixResponse) in
  let dur := default [] (durations matrixResponse) in
  let placesToStayCount := length (placesToStay st) in
  lift (mapi (updatePlace dist dur (pointsOfInterest st) placesToStayCount)
             0 (placesToStay st))).

(** [calculateDistances]: the state after the call and what was observed. *)
Definition calculateDistances (st : AppState) : AppState * list Event :=
  if (length (placesToStay st) =? 0)%nat || (length (pointsOfInterest st) =? 0)%nat
  then (st, [])
  else
    match aggregate st with
    | (log, Ok updatedPlacesToStay) => (setPlacesToStay updatedPlacesToStay st, log)
    | (log, Throw error) => (st, log ++ [ConsoleError error])
    end.

End Provider.


(** ** Ranking (the sort of [PlacesToStayDisplay]) *)

(** [x || 0] on an optional number: [undefined], NaN, [0] and [-0] are
    falsy and give [0]. *)
Definition or_zero (x : option number) : number :=
  match x with
  | Some v => if is_nan v || is_zero v then 0%float else v
  | None => 0%float
  end.

(** The expression bound to [distanceA] (and, on [b], to [distanceB]). *)
Definition sortKey (distanceMode : DistanceCalculationMode) (a : PlaceToStay.t) : number :=
  match distanceMode with
  | average => or_zero (PlaceToStay.averageDistance a)
  | cumulative => or_zero (PlaceToStay.cumulativeDistance a)
  end.

(** The callback given to [sort]. *)
Definition compareFn (distanceMode : DistanceCalculationMode) (a b : PlaceToStay.t) : number :=
  let distanceA := sortKey distanceMode a in
  let distanceB := sortKey distanceMode b in
  (distanceA - distanceB)%float.

(** [Array.prototype.sort] belongs to the language.  ECMAScript reads the
    callback through [SortCompare], where a NaN result counts as [+0], and
    requires the sort to be stable; for a consistent callback this fixes the
    result, which is computed here by insertion: an element moves past those
    it compares strictly greater than. *)
Definition SortCompare {A} (comparefn : A -> A -> number) (x y : A) : number :=
  let v := comparefn x y in
  if is_nan v then 0%float else v.

Fixpoint sort_insert {A} (comparefn : A -> A -> number) (x : A) (sorted : list A) : list A :=
  match sorted with
  | [] => [x]
  | y :: rest =>
      if (0 <? SortCompare comparefn x y)%float
      then y :: sort_insert comparefn x rest
      else x :: sorted
  end.

Definition Array_sort {A} (comparefn : A -> A -> number) (l : list A) : list A :=
  foldr (sort_insert comparefn) [] l.

(** The ranking as a function of the anchors. *)
Definition rank (distanceMode : DistanceCalculationMode) (anchors : list PlaceToStay.t)
    : list PlaceToStay.t :=
  Array_sort (compareFn distanceMode) anchors.

(** Arrays are objects: [sort] works in place on the array it is called on,
    so the arrays live in a store and are named by references. *)
Abbreviation heap := (gmap nat (list PlaceToStay.t)).

(** [[...xs]]: a fresh array with the elements of the array at [r]. *)
Definition spread (h : heap) (r : nat) : option (heap * nat) :=
  match h !! r with
  | Some xs => let r' := fresh (dom h) in Some (<[r' := xs]> h, r')
  | None => None
  end.

(** [r.sort(comparefn)]: sorts the array at [r] in place and returns [r]. *)
Definition sort_in_place (comparefn : PlaceToStay.t -> PlaceToStay.t -> number)
    (h : heap) (r : nat) : option (heap * nat) :=
  match h !! r with
  | Some xs => Some (<[r := Array_sort comparefn xs]> h, r)
  | None => None
  end.

(** [const sortedPlacesToStay = [...placesToStay].sort((a, b) => ...)]. *)
Definition sortedPlacesToStay (distanceMode : DistanceCalculationMode)
    (h : heap) (placesToStay : nat) : option (heap * nat) :=
  match spread h placesToStay with
  | Some (h1, copy) => sort_in_place (compareFn distanceMode) h1 copy
  | None => None
  end.

(** ** Links ([ensureHttpsProtocol] and the link text) *)

(** A string is falsy exactly when it is empty. *)
Definition ensureHttpsProtocol (url : string) : string :=
  if String.eqb url "" then url
  else if String.prefix "http://" url || String.prefix "https://" url then url
  else String.append "https://" url.


(** ** Names of new places *)

Definition DEFAULT_PLACE_NAME : string := "A cool place".

(** [x || y] where [x] is a string or [undefined] and [y] a string. *)
Definition str_or (x : option string) (y : string) : string :=
  match x with
  | Some s => if String.eqb s "" then y else s
  | None => y
  end.

(** [x || undefined] (or [x || null]) on a string or [undefined]. *)
Definition str_or_undefined (x : option string) : option string :=
  match x with
  | Some s => if String.eqb s "" then None else Some s
  | None => None
  end.



(** ** The lists and the selection *)

(** The state variables the list handlers read and write, around the ones
    of [AppState]. *)
Record Ui := {
  ui_app : AppState;
  searchedLocation : option Location;
  selectedPlaceToStay : option string;
  selectedPOI : option string;
  editingPOI : option string;
  editingPlace : option string;
}.

Definition setPointsOfInterest (pois : list PointOfInterest.t) (st : AppState) : AppState :=
  {| pointsOfInterest := pois;
     placesToStay := placesToStay st;
     distanceMode := distanceMode st;
     transportProfile := transportProfile st |}.

Definition with_app (f : AppState -> AppState) (ui : Ui) : Ui :=
  {| ui_app := f (ui_app ui);
     searchedLocation := searchedLocation ui;
     selectedPlaceToStay := selectedPlaceToStay ui;
     selectedPOI := selectedPOI ui;
     editingPOI := editingPOI ui;
     editingPlace := editingPlace ui |}.

(** [Partial<PointOfInterest>]: a property is absent or present; an optional
    property that is present may hold [undefined]. *)
Module PartialPointOfInterest.
Record t := {
  id : option string;
  name : option string;
  location : option Location;
  note : option (option string);
  url : option (option string);
}.
End PartialPointOfInterest.

Module PartialPlaceToStay.
Record t := {
  id : option string;
  name : option string;
  location : option Location;
  note : option (option string);
  url : option (option string);
  averageDistance : option (option number);
  cumulativeDistance : option (option number);
  averageTime : option (option number);
  cumulativeTime : option (option number);
  distancesToPOIs : option (option (gmap string PoiDistance));
}.
End PartialPlaceToStay.

(** [{ ...poi, ...updates }]. *)
Definition spreadPOI (poi : PointOfInterest.t) (updates : PartialPointOfInterest.t)
    : PointOfInterest.t :=
  {| PointOfInterest.id := default (PointOfInterest.id poi) (PartialPointOfInterest.id updates);
     PointOfInterest.name :=
       default (PointOfInterest.name poi) (PartialPointOfInterest.name updates);
     PointOfInterest.location :=
       default (PointOfInterest.location poi) (PartialPointOfInterest.location updates);
     PointOfInterest.note :=
       default (PointOfInterest.note poi) (PartialPointOfInterest.note updates);
     PointOfInterest.url :=
       default (PointOfInterest.url poi) (PartialPointOfInterest.url updates) |}.

(** [{ ...place, ...updates }]. *)
Definition spreadPlace (place : PlaceToStay.t) (updates : PartialPlaceToStay.t)
    : PlaceToStay.t :=
  {| PlaceToStay.id := default (PlaceToStay.id place) (PartialPlaceToStay.id updates);
     PlaceToStay.name := default (PlaceToStay.name place) (PartialPlaceToStay.name updates);
     PlaceToStay.location :=
       default (PlaceToStay.location place) (PartialPlaceToStay.location updates);
     PlaceToStay.note := default (PlaceToStay.note place) (PartialPlaceToStay.note updates);
     PlaceToStay.url := default (PlaceToStay.url place) (PartialPlaceToStay.url updates);
     PlaceToStay.averageDistance :=
       default (PlaceToStay.averageDistance place) (PartialPlaceToStay.averageDistance updates);
     PlaceToStay.cumulativeDistance :=
       default (PlaceToStay.cumulativeDistance place)
         (PartialPlaceToStay.cumulativeDistance updates);
     PlaceToStay.averageTime :=
       default (PlaceToStay.averageTime place) (PartialPlaceToStay.averageTime updates);
     PlaceToStay.cumulativeTime :=
       default (PlaceToStay.cumulativeTime place) (PartialPlaceToStay.cumulativeTime updates);
     PlaceToStay.distancesToPOIs :=
       default (PlaceToStay.distancesToPOIs place)
         (PartialPlaceToStay.distancesToPOIs updates) |}.

(** The updater of [updatePOI]:
    [prev.map((poi) => (poi.id === id ? { ...poi, ...updates } : poi))]. *)
Definition updatePOI (id : string) (updates : PartialPointOfInterest.t)
    (prev : list PointOfInterest.t) : list PointOfInterest.t :=
  (fun poi => if String.eqb (PointOfInterest.id poi) id then spreadPOI poi updates else poi)
    <$> prev.

(** The updater of [updatePlaceToStay]. *)
Definition updatePlaceToStay (id : string) (updates : PartialPlaceToStay.t)
    (prev : list PlaceToStay.t) : list PlaceToStay.t :=
  (fun place =>
     if String.eqb (PlaceToStay.id place) id then spreadPlace place updates else place)
    <$> prev.

(** [removePOI(id)]; [confirm] is the answer of [window.confirm]. *)
Definition removePOI (confirm : bool) (id : string) (ui : Ui) : Ui :=
  if confirm
  then with_app (fun st =>
         setPointsOfInterest
           (List.filter (fun poi => negb (String.eqb (PointOfInterest.id poi) id))
              (pointsOfInterest st)) st) ui
  else ui.

(** [removePlaceToStay(id)]. *)
Definition removePlaceToStay (confirm : bool) (id : string) (ui : Ui) : Ui :=
  if confirm
  then
    {| ui_app :=
         setPlacesToStay
           (List.filter (fun place => negb (String.eqb (PlaceToStay.id place) id))
              (placesToStay (ui_app ui))) (ui_app ui);
       searchedLocation := searchedLocation ui;
       selectedPlaceToStay :=
         match selectedPlaceToStay ui with
         | Some s => if String.eqb s id then None else Some s
         | None => None
         end;
       selectedPOI := selectedPOI ui;
       editingPOI := editingPOI ui;
       editingPlace := editingPlace ui |}
  else ui.

(** The [Save] button of a target's edit form; the three values are those
    of the form's inputs ([ref?.value], [undefined] without the element). *)
Definition savePOI (nameValue noteValue urlValue : option string) (poi : PointOfInterest.t)
    (ui : Ui) : Ui :=
  let name := str_or nameValue (PointOfInterest.name poi) in
  let note := str_or_undefined noteValue in
  let url := str_or_undefined urlValue in
  {| ui_app :=
       setPointsOfInterest
         (updatePOI (PointOfInterest.id poi)
            {| PartialPointOfInterest.id := None;
               PartialPointOfInterest.name := Some name;
               PartialPointOfInterest.location := None;
               PartialPointOfInterest.note := Some note;
               PartialPointOfInterest.url := Some url |}
            (pointsOfInterest (ui_app ui))) (ui_app ui);
     searchedLocation := searchedLocation ui;
     selectedPlaceToStay := selectedPlaceToStay ui;
     selectedPOI := selectedPOI ui;
     editingPOI := None;
     editingPlace := editingPlace ui |}.

(** The updates the [Save] button of an anchor's edit form passes. *)
Definition placeEdits (name : string) (note url : option string) : PartialPlaceToStay.t :=
  {| PartialPlaceToStay.id := None;
     PartialPlaceToStay.name := Some name;
     PartialPlaceToStay.location := None;
     PartialPlaceToStay.note := Some note;
     PartialPlaceToStay.url := Some url;
     PartialPlaceToStay.averageDistance := None;
     PartialPlaceToStay.cumulativeDistance := None;
     PartialPlaceToStay.averageTime := None;
     PartialPlaceToStay.cumulativeTime := None;
     PartialPlaceToStay.distancesToPOIs := None |}.

(** The [Save] button of an anchor's edit form. *)
Definition savePlace (nameValue noteValue urlValue : option string) (place : PlaceToStay.t)
    (ui : Ui) : Ui :=
  let name := str_or nameValue (PlaceToStay.name place) in
  let note := str_or_undefined noteValue in
  let url := str_or_undefined urlValue in
  {| ui_app :=
       setPlacesToStay
         (updatePlaceToStay (PlaceToStay.id place) (placeEdits name note url)
            (placesToStay (ui_app ui))) (ui_app ui);
     searchedLocation := searchedLocation ui;
     selectedPlaceToStay := selectedPlaceToStay ui;
     selectedPOI := selectedPOI ui;
     editingPOI := editingPOI ui;
     editingPlace := None |}.

(** A target as the handlers create it: no note, no url. *)
Definition newPOI (id name : string) (location : Location) : PointOfInterest.t :=
  {| PointOfInterest.id := id; PointOfInterest.name := name;
     PointOfInterest.location := location;
     PointOfInterest.note := None; PointOfInterest.url := None |}.

(** An anchor as the handlers create it: no note, no url, no derived field. *)
Definition newPlaceToStay (id name : string) (location : Location) : PlaceToStay.t :=
  {| PlaceToStay.id := id; PlaceToStay.name := name; PlaceToStay.location := location;
     PlaceToStay.note := None; PlaceToStay.url := None;
     PlaceToStay.averageDistance := None; PlaceToStay.cumulativeDistance := None;
     PlaceToStay.averageTime := None; PlaceToStay.cumulativeTime := None;
     PlaceToStay.distancesToPOIs := None |}.

(** The name the two [Add] buttons give:
    [placeName || address || DEFAULT_PLACE_NAME]. *)
Definition searchedName (l : Location) : string :=
  str_or (placeName l) (str_or (Some (address l)) DEFAULT_PLACE_NAME).

(** The button of [AddPointOfInterestControl]; [newId] is the value of
    [crypto.randomUUID()]. *)
Definition addPointOfInterest (newId : string) (ui : Ui) : Ui :=
  match searchedLocation ui with
  | Some l =>
      with_app (fun st =>
        setPointsOfInterest (pointsOfInterest st ++ [newPOI newId (searchedName l) l]) st) ui
  | None => ui
  end.

(** The button of [AddPlaceToStayControl]. *)
Definition addPlaceToStay (newId : string) (ui : Ui) : Ui :=
  match searchedLocation ui with
  | Some l =>
      with_app (fun st =>
        setPlacesToStay (placesToStay st ++ [newPlaceToStay newId (searchedName l) l]) st) ui
  | None => ui
  end.

Inductive PlaceType := type_poi | type_stay.

(** [addPlaceFromMapClick(lng, lat, placeName, type)], on the lists. *)
Definition addPlaceFromMapClick (lng lat : number) (placeName : string) (type : PlaceType)
    (newId : string) (ui : Ui) : Ui :=
  let newLocation :=
    {| coordinates := {| lat := lat; lon := lng |};
       address := placeName;
       placeName := Some placeName |} in
  match type with
  | type_poi =>
      with_app (fun st =>
        setPointsOfInterest (pointsOfInterest st ++ [newPOI newId placeName newLocation]) st) ui
  | type_stay =>
      with_app (fun st =>
        setPlacesToStay (placesToStay st ++ [newPlaceToStay newId placeName newLocation]) st) ui
  end.

(** The name [showAddPlacePopup] hands to the buttons of its popup:
    [placeName || DEFAULT_PLACE_NAME], [found] being the name the lookups
    gave, if any. *)
Definition popupPlaceName (found : option string) : string :=
  str_or found DEFAULT_PLACE_NAME.

(** ** Distance details of the selected anchor *)



(** ** The handlers as one transition function *)

Definition setDistanceMode (m : DistanceCalculationMode) (st : AppState) : AppState :=
  {| pointsOfInterest := pointsOfInterest st;
     placesToStay := placesToStay st;
     distanceMode := m;
     transportProfile := transportProfile st |}.

Definition setTransportProfile (p : TransportProfile) (st : AppState) : AppState :=
  {| pointsOfInterest := pointsOfInterest st;
     placesToStay := placesToStay st;
     distanceMode := distanceMode st;
     transportProfile := p |}.

Definition setSelectedPlaceToStay (s : option string) (ui : Ui) : Ui :=
  {| ui_app := ui_app ui;
     searchedLocation := searchedLocation ui;
     selectedPlaceToStay := s;
     selectedPOI := selectedPOI ui;
     editingPOI := editingPOI ui;
     editingPlace := editingPlace ui |}.

Definition setSelectedPOI (s : option string) (ui : Ui) : Ui :=
  {| ui_app := ui_app ui;
     searchedLocation := searchedLocation ui;
     selectedPlaceToStay := selectedPlaceToStay ui;
     selectedPOI := s;
     editingPOI := editingPOI ui;
     editingPlace := editingPlace ui |}.

(** The events of the interface that reach the lists.  A list item is named
    by its position in the rendered list: the targets are rendered in list
    order, the anchors in ranked order.
    - [AddPointOfInterest], [AddPlaceToStay]: the two [Add] buttons;
    - [MapClickAdd]: a button of the popup of [showAddPlacePopup], [found]
      being the name its lookups gave;
    - [RemovePOI], [RemovePlaceToStay]: the [Remove] buttons, with the
      answer of [window.confirm];
    - [SavePOI], [SavePlace]: the [Save] buttons of the edit forms;
    - [SelectPOI], [SelectPlaceToStay]: a click on an item;
    - [ChangeDistanceMode], [ChangeTransportProfile]: the two selectors;
    - [Recalculate]: a run of [calculateDistances] to its end. *)
Inductive Action :=
| AddPointOfInterest (newId : string)
| AddPlaceToStay (newId : string)
| MapClickAdd (lng lat : number) (found : option string) (type : PlaceType) (newId : string)
| RemovePOI (confirm : bool) (i : nat)
| RemovePlaceToStay (confirm : bool) (i : nat)
| SavePOI (nameValue noteValue urlValue : option string) (i : nat)
| SavePlace (nameValue noteValue urlValue : option string) (i : nat)
| SelectPOI (i : nat)
| SelectPlaceToStay (i : nat)
| ChangeDistanceMode (m : DistanceCalculationMode)
| ChangeTransportProfile (p : TransportProfile)
| Recalculate (send : MatrixRequest -> SendResult).

(** The anchors as [PlacesToStayDisplay] lists them. *)
Definition displayedPlaces (ui : Ui) : list PlaceToStay.t :=
  rank (distanceMode (ui_app ui)) (placesToStay (ui_app ui)).

Definition act (a : Action) (ui : Ui) : Ui :=
  match a with
  | AddPointOfInterest newId => addPointOfInterest newId ui
  | AddPlaceToStay newId => addPlaceToStay newId ui
  | MapClickAdd lng lat found type newId =>
      addPlaceFromMapClick lng lat (popupPlaceName found) type newId ui
  | RemovePOI confirm i =>
      match pointsOfInterest (ui_app ui) !! i with
      | Some poi => removePOI confirm (PointOfInterest.id poi) ui
      | None => ui
      end
  | RemovePlaceToStay confirm i =>
      match displayedPlaces ui !! i with
      | Some place => removePlaceToStay confirm (PlaceToStay.id place) ui
      | None => ui
      end
  | SavePOI nameValue noteValue urlValue i =>
      match pointsOfInterest (ui_app ui) !! i with
      | Some poi => savePOI nameValue noteValue urlValue poi ui
      | None => ui
      end
  | SavePlace nameValue noteValue urlValue i =>
      match displayedPlaces ui !! i with
      | Some place => savePlace nameValue noteValue urlValue place ui
      | None => ui
      end
  | SelectPOI i =>
      match pointsOfInterest (ui_app ui) !! i with
      | Some poi => setSelectedPOI (Some (PointOfInterest.id poi)) ui
      | None => ui
      end
  | SelectPlaceToStay i =>
      match displayedPlaces ui !! i with
      | Some place => setSelectedPlaceToStay (Some (PlaceToStay.id place)) ui
      | None => ui
      end
  | ChangeDistanceMode m => with_app (setDistanceMode m) ui
  | ChangeTransportProfile p => with_app (setTransportProfile p) ui
  | Recalculate send => with_app (fun st => fst (calculateDistances send st)) ui
  end.
(** ** What one run of the [forEach] loop computes *)

(** The pair stored for the target read at column [col] of the anchor's rows. *)
Definition converted (drow trow : list jsval) (col : nat) : PoiDistance :=
  {| distance := (ToNumber (cell drow col) / 1000 * 0.621371)%float;
     duration := (ToNumber (cell trow col) / 60)%float |}.

(** One iteration on the three locals, once the rows are known. *)
Definition step (acc : Totals) (e : string * PoiDistance) : Totals :=
  {| acc_distancesToPOIs := <[e.1 := e.2]> (acc_distancesToPOIs acc);
     totalDistance := (totalDistance acc + distance e.2)%float;
     totalTime := (totalTime acc + duration e.2)%float |}.

(** The targets' ids with their pairs, the head of [pois] having index [k]. *)
Fixpoint entries (drow trow : list jsval) (count k : nat) (pois : list PointOfInterest.t)
    : list (string * PoiDistance) :=
  match pois with
  | [] => []
  | poi :: pois' =>
      (PointOfInterest.id poi, converted drow trow (count + k))
        :: entries drow trow count (S k) pois'
  end.

Definition rowOr (m : matrix) (i : nat) : list jsval := default [] (m !! i).

(** The anchor as rebuilt by the callback from the final locals. *)
Definition rebuilt (place : PlaceToStay.t) (n : number) (acc : Totals) : PlaceToStay.t :=
  {| PlaceToStay.id := PlaceToStay.id place;
     PlaceToStay.name := PlaceToStay.name place;
     PlaceToStay.location := PlaceToStay.location place;
     PlaceToStay.note := PlaceToStay.note place;
     PlaceToStay.url := PlaceToStay.url place;
     PlaceToStay.distancesToPOIs := Some (acc_distancesToPOIs acc);
     PlaceToStay.averageDistance := Some (totalDistance acc / n)%float;
     PlaceToStay.cumulativeDistance := Some (totalDistance acc);
     PlaceToStay.averageTime := Some (totalTime acc / n)%float;
     PlaceToStay.cumulativeTime := Some (totalTime acc) |}.

(** The request [fetchMapBoxDirectionsMatrix] builds for a state. *)
Definition request (st : AppState) : MatrixRequest :=
  {| req_profile := transportProfile st;
     req_annotations := [ann_duration; ann_distance];
     req_points := (fun l => (lon l, lat l)) <$> allLocations st |}.

(** The matrices the loop reads, as [calculateDistances] takes them from the body. *)
Definition distancesOf (body : MatrixBody) : matrix := default [] (distances body).
Definition durationsOf (body : MatrixBody) : matrix := default [] (durations body).




(** An anchor with its five derived fields forgotten. *)
Definition clearDerived (place : PlaceToStay.t) : PlaceToStay.t :=
  {| PlaceToStay.id := PlaceToStay.id place;
     PlaceToStay.name := PlaceToStay.name place;
     PlaceToStay.location := PlaceToStay.location place;
     PlaceToStay.note := PlaceToStay.note place;
     PlaceToStay.url := PlaceToStay.url place;
     PlaceToStay.distancesToPOIs := None;
     PlaceToStay.averageDistance := None;
     PlaceToStay.cumulativeDistance := None;
     PlaceToStay.averageTime := None;
     PlaceToStay.cumulativeTime := None |}.


(** Target [j] is the last one of the list carrying its id. *)
Definition last_with_id (pois : list PointOfInterest.t) (j : nat) (poi : PointOfInterest.t)
    : Prop :=
  pois !! j = Some poi /\
  forall j' poi', (j < j')%nat -> pois !! j' = Some poi' ->
    PointOfInterest.id poi' <> PointOfInterest.id poi.

(** The anchors a normal end returns, in closed form. *)
Definition rebuiltAll (st : AppState) (body : MatrixBody) : list PlaceToStay.t :=
  imap (fun i place =>
          rebuilt place (length_number (pointsOfInterest st))
            (foldl step Totals0
               (entries (rowOr (distancesOf body) i) (rowOr (durationsOf body) i)
                  (length (placesToStay st)) 0 (pointsOfInterest st))))
       (placesToStay st).

(** ** Auxiliary notions for the ranking *)

(** The derived field the display mode selects as sort key. *)
Definition keyField (mode : DistanceCalculationMode) (a : PlaceToStay.t) : option number :=
  match mode with
  | average => PlaceToStay.averageDistance a
  | cumulative => PlaceToStay.cumulativeDistance a
  end.

(** [a] may stand before [b]: its key is at most the key of [b]. *)
Definition key_le (mode : DistanceCalculationMode) (a b : PlaceToStay.t) : Prop :=
  (sortKey mode a <=? sortKey mode b)%float = true.

(** The number [+0] in the specification of binary64. *)
Definition SFzero : spec_float := S754_zero false.

(** A finite number or an infinity of sign [s]. *)
Definition has_sign (s : bool) (x : spec_float) : Prop :=
  match x with
  | S754_finite s' _ _ | S754_infinity s' => s' = s
  | _ => False
  end.

(** ** Auxiliary notions for the further properties *)





(** No two targets and no two anchors share an id. *)
Definition ids_unique (ui : Ui) : Prop :=
  NoDup (PointOfInterest.id <$> pointsOfInterest (ui_app ui))
  /\ NoDup (PlaceToStay.id <$> placesToStay (ui_app ui)).

(** The id an action brings is new to the list it extends. *)
Definition brings_fresh_id (a : Action) (ui : Ui) : Prop :=
  match a with
  | AddPointOfInterest newId | MapClickAdd _ _ _ type_poi newId =>
      newId ∉ PointOfInterest.id <$> pointsOfInterest (ui_app ui)
  | AddPlaceToStay newId | MapClickAdd _ _ _ type_stay newId =>
      newId ∉ PlaceToStay.id <$> placesToStay (ui_app ui)
  | _ => True
  end.

(** The five derived fields of an anchor. *)
Definition derivedFields (p : PlaceToStay.t)
    : option number * option number * option number * option number
      * option (gmap string PoiDistance) :=
  (PlaceToStay.averageDistance p, PlaceToStay.cumulativeDistance p,
   PlaceToStay.averageTime p, PlaceToStay.cumulativeTime p,
   PlaceToStay.distancesToPOIs p).

(** ** Concrete states and provider answers used as test points *)

Definition origin : Location :=
  {| coordinates := {| lat := 0%float; lon := 0%float |}; address := "origin"; placeName := None |}.

Definition target (i : string) : PointOfInterest.t :=
  {| PointOfInterest.id := i; PointOfInterest.name := i; PointOfInterest.location := origin;
     PointOfInterest.note := None; PointOfInterest.url := None |}.

(** An anchor that was never aggregated. *)
Definition anchor (i : string) : PlaceToStay.t :=
  {| PlaceToStay.id := i; PlaceToStay.name := i; PlaceToStay.location := origin;
     PlaceToStay.note := None; PlaceToStay.url := None;
     PlaceToStay.averageDistance := None; PlaceToStay.cumulativeDistance := None;
     PlaceToStay.averageTime := None; PlaceToStay.cumulativeTime := None;
     PlaceToStay.distancesToPOIs := None |}.

(** An anchor carrying the derived scalars of an earlier aggregation. *)
Definition aggregated (i : string) (avg cum : number) : PlaceToStay.t :=
  {| PlaceToStay.id := i; PlaceToStay.name := i; PlaceToStay.location := origin;
     PlaceToStay.note := None; PlaceToStay.url := None;
     PlaceToStay.averageDistance := Some avg; PlaceToStay.cumulativeDistance := Some cum;
     PlaceToStay.averageTime := Some avg; PlaceToStay.cumulativeTime := Some cum;
     PlaceToStay.distancesToPOIs := Some ∅ |}.

(** One anchor [A], two targets [T1], [T2], walking. *)
Definition scenario : AppState :=
  {| pointsOfInterest := [target "T1"; target "T2"];
     placesToStay := [anchor "A"];
     distanceMode := average;
     transportProfile := walking |}.

Definition scenario_body : MatrixBody :=
  {| distances := Some [[JNumber 0; JNumber 1000; JNumber 3000]];
     durations := Some [[JNumber 0; JNumber 60; JNumber 180]] |}.

Definition scenario_send (_ : MatrixRequest) : SendResult := SendResolved 200 scenario_body.

(** The anchor expected after the aggregation; [3000 / 1000 * 0.621371]
    rounds to the double next above [1.864113]. *)
Definition scenario_anchor : PlaceToStay.t :=
  {| PlaceToStay.id := "A"; PlaceToStay.name := "A"; PlaceToStay.location := origin;
     PlaceToStay.note := None; PlaceToStay.url := None;
     PlaceToStay.averageDistance := Some 1.242742%float;
     PlaceToStay.cumulativeDistance := Some 2.485484%float;
     PlaceToStay.averageTime := Some 2%float;
     PlaceToStay.cumulativeTime := Some 4%float;
     PlaceToStay.distancesToPOIs :=
       Some (<["T2" := {| distance := 1.8641130000000001%float; duration := 3%float |}]>
               (<["T1" := {| distance := 0.621371%float; duration := 1%float |}]> ∅)) |}.

Definition scenario_expected : list PlaceToStay.t := [scenario_anchor].

(** The same scenario with other values in the anchor's own column. *)
Definition scenario_body_selfcol : MatrixBody :=
  {| distances := Some [[JNumber 77; JNumber 1000; JNumber 3000]];
     durations := Some [[JNull; JNumber 60; JNumber 180]] |}.

Definition scenario_send_selfcol (_ : MatrixRequest) : SendResult :=
  SendResolved 200 scenario_body_selfcol.

(** The provider reports no route from [A] to [T1]. *)
Definition unreachable_body : MatrixBody :=
  {| distances := Some [[JNumber 0; JNull; JNumber 3000]];
     durations := Some [[JNumber 0; JNull; JNumber 180]] |}.

Definition unreachable_send (_ : MatrixRequest) : SendResult := SendResolved 200 unreachable_body.

Definition unreachable_result : list PlaceToStay.t :=
  [ {| PlaceToStay.id := "A"; PlaceToStay.name := "A"; PlaceToStay.location := origin;
       PlaceToStay.note := None; PlaceToStay.url := None;
       PlaceToStay.averageDistance := Some 0.93205650000000007%float;
       PlaceToStay.cumulativeDistance := Some 1.8641130000000001%float;
       PlaceToStay.averageTime := Some 1.5%float;
       PlaceToStay.cumulativeTime := Some 3%float;
       PlaceToStay.distancesToPOIs :=
         Some (<["T2" := {| distance := 1.8641130000000001%float; duration := 3%float |}]>
                 (<["T1" := {| distance := 0%float; duration := 0%float |}]> ∅)) |} ].

(** The provider answers HTTP 500. *)
Definition failing_send (_ : MatrixRequest) : SendResult :=
  SendResolved 500 {| distances := None; durations := None |}.

(** A state whose anchors were aggregated before the failing call. *)
Definition stale : AppState :=
  {| pointsOfInterest := [target "T1"];
     placesToStay := [aggregated "A" 1.5%float 3%float; aggregated "B" 0.5%float 1%float];
     distanceMode := average;
     transportProfile := cycling |}.

(** Anchors but no target. *)
Definition no_targets : AppState :=
  {| pointsOfInterest := [];
     placesToStay := [aggregated "A" 1.5%float 3%float];
     distanceMode := average;
     transportProfile := walking |}.

(** Three anchors: two with the same average, one never aggregated. *)
Definition ranked_input : list PlaceToStay.t :=
  [aggregated "far" 2.5%float 5%float; aggregated "near1" 1%float 9%float;
   anchor "new"; aggregated "near2" 1%float 2%float].

(** A store holding the state's array of anchors at reference 0. *)
Definition ranked_heap : heap := {[ 0%nat := ranked_input ]}.

(** ** Test points for the interface *)


(** The state [stale] with anchor [A] and target [T1] selected, and a
    searched location without a place name. *)
Definition stale_ui : Ui :=
  {| ui_app := stale;
     searchedLocation :=
       Some {| coordinates := {| lat := 35%float; lon := (-106)%float |};
               address := "Central Ave"; placeName := None |};
     selectedPlaceToStay := Some "A";
     selectedPOI := Some "T1";
     editingPOI := Some "T1";
     editingPlace := None |}.


(** * Binary64 facts used by the ranking

    The sort callback returns a difference of keys, and only its sign is
    read.  The facts below, proved from the Standard Library's specification
    of binary64, relate that sign to the order of the keys. *)

Module F64.

(** ** Mantissas, digits and shifts *)

Lemma prec_positive : 0 < prec.
Proof. reflexivity. Qed.

Lemma digits2_pos_bounds p :
  2 ^ (Zpos (digits2_pos p) - 1) <= Zpos p < 2 ^ Zpos (digits2_pos p).
Proof.
  induction p as [p IH | p IH |]; simpl digits2_pos; [| | simpl; lia];
    rewrite Pos2Z.inj_succ, Z.pow_succ_r by lia;
    replace (Z.succ (Zpos (digits2_pos p)) - 1) with (Z.succ (Zpos (digits2_pos p) - 1))
      by lia;
    rewrite Z.pow_succ_r by lia; lia.
Qed.

Lemma shr_m_of_loc m l : shr_m (shr_record_of_loc m l) = m.
Proof. destruct l as [| []]; reflexivity. Qed.

Lemma shr_1_half mrs : 0 <= shr_m mrs -> shr_m (shr_1 mrs) = shr_m mrs / 2.
Proof.
  destruct mrs as [m r s]. simpl. intros Hm.
  destruct m as [| [p | p |] | p]; simpl shr_m; try reflexivity; try lia.
  - apply (Z.div_unique _ _ _ 1); lia.
  - apply (Z.div_unique _ _ _ 0); lia.
Qed.

Lemma pow2_double p : 2 ^ Zpos p~0 = 2 ^ Zpos p * 2 ^ Zpos p.
Proof.
  replace (Zpos p~0) with (Zpos p + Zpos p) by lia. rewrite Z.pow_add_r by lia. reflexivity.
Qed.

Lemma pow2_double_succ p : 2 ^ Zpos p~1 = 2 * (2 ^ Zpos p * 2 ^ Zpos p).
Proof.
  replace (Zpos p~1) with (1 + Zpos p + Zpos p) by lia.
  rewrite !Z.pow_add_r by lia. change (2 ^ 1) with 2. ring.
Qed.

(** [p] right shifts divide the mantissa by [2 ^ p]. *)
Lemma iter_shr_1 p :
  forall mrs, 0 <= shr_m mrs ->
    shr_m (SpecFloat.iter_pos shr_1 p mrs) = shr_m mrs / 2 ^ Zpos p.
Proof.
  induction p as [p IH | p IH |]; intros mrs Hm; simpl SpecFloat.iter_pos.
  - assert (H1 : 0 <= shr_m (shr_1 mrs)).
    { rewrite shr_1_half by exact Hm. apply Z.div_pos; lia. }
    assert (H2 : 0 <= shr_m (SpecFloat.iter_pos shr_1 p (shr_1 mrs))).
    { rewrite IH by exact H1. apply Z.div_pos; [exact H1 | apply Z.pow_pos_nonneg; lia]. }
    rewrite IH by exact H2. rewrite IH by exact H1. rewrite shr_1_half by exact Hm.
    pose proof (Z.pow_pos_nonneg 2 (Zpos p) ltac:(lia) ltac:(lia)) as Hpow.
    rewrite pow2_double_succ, !Z.div_div by lia. reflexivity.
  - assert (H2 : 0 <= shr_m (SpecFloat.iter_pos shr_1 p mrs)).
    { rewrite IH by exact Hm. apply Z.div_pos; [exact Hm | apply Z.pow_pos_nonneg; lia]. }
    rewrite IH by exact H2. rewrite IH by exact Hm.
    pose proof (Z.pow_pos_nonneg 2 (Zpos p) ltac:(lia) ltac:(lia)) as Hpow.
    rewrite pow2_double, !Z.div_div by lia. reflexivity.
  - rewrite shr_1_half by exact Hm. reflexivity.
Qed.

Lemma iter_xO m d : Zpos (Pos.iter xO m d) = Zpos m * 2 ^ Zpos d.
Proof.
  induction d as [| d IH] using Pos.peano_ind.
  - simpl. lia.
  - rewrite Pos.iter_succ, Pos2Z.inj_xO, IH, Pos2Z.inj_succ, Z.pow_succ_r by lia. ring.
Qed.

Lemma shl_align_value mx ex ez :
  ez <= ex -> Zpos (fst (shl_align mx ex ez)) = Zpos mx * 2 ^ (ex - ez).
Proof.
  intros H. unfold shl_align. destruct (ez - ex) as [| d | d] eqn:E; simpl fst.
  - replace (ex - ez) with 0 by lia. simpl. lia.
  - lia.
  - replace (ex - ez) with (Zpos d) by lia. apply iter_xO.
Qed.

Lemma shl_align_exponent mx ex ex' : Z.min ex ex' = snd (shl_align mx ex ex').
Proof. unfold shl_align. destruct (ex' - ex) eqn:H; simpl; lia. Qed.

(** ** Rounding never turns a non-zero integer into zero *)

(** Shifting a positive mantissa to its format exponent keeps it positive. *)
Lemma shr_fexp_pos m e l :
  0 < m -> emin <= e ->
  0 < shr_m (fst (shr_fexp prec emax m e l)) /\ emin <= snd (shr_fexp prec emax m e l).
Proof.
  intros Hm He. pose proof prec_positive as Hprec. unfold shr_fexp, shr.
  destruct m as [| p | p]; try lia. simpl Zdigits2.
  pose proof (digits2_pos_bounds p) as [Hlo Hhi].
  set (d := Zpos (digits2_pos p)) in *.
  destruct (SpecFloat.fexp prec emax (d + e) - e) as [| n | n] eqn:Hn; simpl fst; simpl snd.
  - rewrite shr_m_of_loc. lia.
  - rewrite iter_shr_1 by (rewrite shr_m_of_loc; lia).
    rewrite shr_m_of_loc. unfold SpecFloat.fexp in Hn.
    assert (Hd : Zpos n = d - prec) by lia.
    split; [| lia].
    apply Z.div_str_pos. split; [apply Z.pow_pos_nonneg; lia |].
    apply Z.le_trans with (2 ^ (d - 1)); [| exact Hlo].
    apply Z.pow_le_mono_r; lia.
  - rewrite shr_m_of_loc. lia.
Qed.

Lemma round_nearest_even_ge m l : m <= round_nearest_even m l.
Proof. destruct l as [| []]; simpl; try lia. destruct (Z.even m); lia. Qed.

Lemma binary_round_aux_sign s m e l :
  0 < m -> emin <= e -> has_sign s (binary_round_aux prec emax s m e l).
Proof.
  intros Hm He. unfold binary_round_aux.
  pose proof (shr_fexp_pos m e l Hm He) as [H1 H2].
  destruct (shr_fexp prec emax m e l) as [mrs' e']. simpl in H1, H2.
  pose proof (round_nearest_even_ge (shr_m mrs') (loc_of_shr_record mrs')) as Hr.
  pose proof (shr_fexp_pos (round_nearest_even (shr_m mrs') (loc_of_shr_record mrs')) e'
                loc_Exact ltac:(lia) H2) as [H3 _].
  destruct (shr_fexp prec emax _ e' loc_Exact) as [mrs'' e'']. simpl in H3.
  destruct (shr_m mrs'') as [| q | q]; try lia.
  destruct (e'' <=? emax - prec); reflexivity.
Qed.

Lemma binary_round_sign s m e :
  emin <= e -> has_sign s (binary_round prec emax s m e).
Proof.
  intros He. unfold binary_round.
  pose proof (shl_align_exponent m e (SpecFloat.fexp prec emax (Zpos (digits2_pos m) + e)))
    as Hz.
  destruct (shl_align m e _) as [mz ez]. simpl in Hz.
  apply binary_round_aux_sign; [lia |].
  unfold SpecFloat.fexp in Hz. lia.
Qed.

(** The sign of a normalised integer is the sign of the integer. *)
Lemma binary_normalize_pos m e :
  emin <= e -> SFltb SFzero (binary_normalize prec emax m e false) = (0 <? m).
Proof.
  intros He. destruct m as [| p | p]; simpl binary_normalize.
  - reflexivity.
  - pose proof (binary_round_sign false p e He) as H.
    destruct (binary_round prec emax false p e) as [| s | | s m' e']; simpl in H;
      try contradiction; subst; reflexivity.
  - pose proof (binary_round_sign true p e He) as H.
    destruct (binary_round prec emax true p e) as [| s | | s m' e']; simpl in H;
      try contradiction; subst; reflexivity.
Qed.

Lemma binary_normalize_neg m e :
  emin <= e -> SFltb (binary_normalize prec emax m e false) SFzero = (m <? 0).
Proof.
  intros He. destruct m as [| p | p]; simpl binary_normalize.
  - reflexivity.
  - pose proof (binary_round_sign false p e He) as H.
    destruct (binary_round prec emax false p e) as [| s | | s m' e']; simpl in H;
      try contradiction; subst; reflexivity.
  - pose proof (binary_round_sign true p e He) as H.
    destruct (binary_round prec emax true p e) as [| s | | s m' e']; simpl in H;
      try contradiction; subst; reflexivity.
Qed.

(** ** Subtraction and order *)

Lemma bounded_inv m e :
  bounded prec emax m e = true ->
  emin <= e /\ Zpos (digits2_pos m) <= prec /\ (emin < e -> Zpos (digits2_pos m) = prec).
Proof.
  unfold bounded, canonical_mantissa, SpecFloat.fexp.
  intros H. apply andb_prop in H as [H _]. apply Z.eqb_eq in H. lia.
Qed.

(** On canonical mantissas the order of the aligned mantissas is the
    lexicographic order of exponent and mantissa. *)
Lemma canonical_compare mx ex my ey :
  bounded prec emax mx ex = true -> bounded prec emax my ey = true ->
  (Zpos (fst (shl_align mx ex (Z.min ex ey))) ?= Zpos (fst (shl_align my ey (Z.min ex ey))))
  = match ex ?= ey with
    | Lt => Lt
    | Gt => Gt
    | Eq => Pos.compare_cont Eq mx my
    end.
Proof.
  intros Hx Hy.
  apply bounded_inv in Hx as (Hex & Hdx & Hnx). apply bounded_inv in Hy as (Hey & Hdy & Hny).
  pose proof (digits2_pos_bounds mx) as [Hlx Hhx].
  pose proof (digits2_pos_bounds my) as [Hly Hhy].
  rewrite !shl_align_value by lia.
  assert (Hprec : 2 ^ prec = 2 * 2 ^ (prec - 1)) by reflexivity.
  destruct (Z.compare_spec ex ey) as [E | E | E].
  - subst ey. rewrite Z.min_id, Z.sub_diag. simpl (2 ^ 0). rewrite !Z.mul_1_r. reflexivity.
  - rewrite Z.min_l by lia. rewrite Z.sub_diag. simpl (2 ^ 0). rewrite Z.mul_1_r.
    apply Z.compare_lt_iff.
    assert (Zpos mx < 2 ^ prec).
    { apply Z.lt_le_trans with (2 ^ Zpos (digits2_pos mx)); [exact Hhx |].
      apply Z.pow_le_mono_r; lia. }
    rewrite Hny in Hly by lia.
    assert (2 ^ 1 <= 2 ^ (ey - ex)) by (apply Z.pow_le_mono_r; lia).
    change (2 ^ 1) with 2 in *. nia.
  - rewrite Z.min_r by lia. rewrite Z.sub_diag. simpl (2 ^ 0). rewrite Z.mul_1_r.
    apply Z.compare_gt_iff.
    assert (Zpos my < 2 ^ prec).
    { apply Z.lt_le_trans with (2 ^ Zpos (digits2_pos my)); [exact Hhy |].
      apply Z.pow_le_mono_r; lia. }
    rewrite Hnx in Hlx by lia.
    assert (2 ^ 1 <= 2 ^ (ex - ey)) by (apply Z.pow_le_mono_r; lia).
    change (2 ^ 1) with 2 in *. nia.
Qed.

Ltac ltb_by_lia := first [apply Z.ltb_lt; lia | apply Z.ltb_ge; lia].

(** The difference of two numbers is positive exactly when the second is
    below the first. *)
Lemma SFsub_pos x y :
  valid_binary x = true -> valid_binary y = true ->
  x <> S754_nan -> y <> S754_nan ->
  SFltb SFzero (SF64sub x y) = SFltb y x.
Proof.
  intros Vx Vy Nx Ny.
  destruct x as [sx | sx | | sx mx ex]; try congruence;
    destruct y as [sy | sy | | sy my ey]; try congruence;
    try (destruct sx, sy; reflexivity); try (destruct sx; reflexivity);
    try (destruct sy; reflexivity).
  unfold SF64sub, SFsub. simpl in Vx, Vy.
  pose proof (bounded_inv _ _ Vx) as (Hex & _). pose proof (bounded_inv _ _ Vy) as (Hey & _).
  rewrite binary_normalize_pos by lia.
  pose proof (canonical_compare my ey mx ex Vy Vx) as Hc.
  rewrite Z.min_comm in Hc.
  set (X := Zpos (fst (shl_align mx ex (Z.min ex ey)))) in *.
  set (Y := Zpos (fst (shl_align my ey (Z.min ex ey)))) in *.
  assert (HX : 0 < X) by (unfold X; lia).
  assert (HY : 0 < Y) by (unfold Y; lia).
  clearbody X Y.
  unfold SFltb, SFcompare.
  destruct sx, sy; simpl cond_Zopp; cbv beta iota.
  - destruct (ey ?= ex); [rewrite <- Hc | |]; cbn [CompOpp];
      destruct (Z.compare_spec Y X); try discriminate; cbn [CompOpp]; ltb_by_lia.
  - ltb_by_lia.
  - ltb_by_lia.
  - destruct (ey ?= ex); [rewrite <- Hc | |];
      destruct (Z.compare_spec Y X); try discriminate; ltb_by_lia.
Qed.

(** And negative exactly when the first is below the second. *)
Lemma SFsub_neg x y :
  valid_binary x = true -> valid_binary y = true ->
  x <> S754_nan -> y <> S754_nan ->
  SFltb (SF64sub x y) SFzero = SFltb x y.
Proof.
  intros Vx Vy Nx Ny.
  destruct x as [sx | sx | | sx mx ex]; try congruence;
    destruct y as [sy | sy | | sy my ey]; try congruence;
    try (destruct sx, sy; reflexivity); try (destruct sx; reflexivity);
    try (destruct sy; reflexivity).
  unfold SF64sub, SFsub. simpl in Vx, Vy.
  pose proof (bounded_inv _ _ Vx) as (Hex & _). pose proof (bounded_inv _ _ Vy) as (Hey & _).
  rewrite binary_normalize_neg by lia.
  pose proof (canonical_compare mx ex my ey Vx Vy) as Hc.
  set (X := Zpos (fst (shl_align mx ex (Z.min ex ey)))) in *.
  set (Y := Zpos (fst (shl_align my ey (Z.min ex ey)))) in *.
  assert (HX : 0 < X) by (unfold X; lia).
  assert (HY : 0 < Y) by (unfold Y; lia).
  clearbody X Y.
  unfold SFltb, SFcompare.
  destruct sx, sy; simpl cond_Zopp; cbv beta iota.
  - destruct (ex ?= ey); [rewrite <- Hc | |]; cbn [CompOpp];
      destruct (Z.compare_spec X Y); try discriminate; cbn [CompOpp]; ltb_by_lia.
  - ltb_by_lia.
  - ltb_by_lia.
  - destruct (ex ?= ey); [rewrite <- Hc | |];
      destruct (Z.compare_spec X Y); try discriminate; ltb_by_lia.
Qed.

(** ** Order facts, by cases on the lexicographic comparison *)

Ltac cases_compare :=
  repeat match goal with
    | H : context [Pos.compare_cont Eq ?a ?b] |- _ =>
        change (Pos.compare_cont Eq a b) with (Pos.compare a b) in H
    | |- context [Pos.compare_cont Eq ?a ?b] =>
        change (Pos.compare_cont Eq a b) with (Pos.compare a b)
    end;
  repeat match goal with
    | H : context [Z.compare ?a ?b] |- _ => destruct (Z.compare_spec a b); try discriminate H
    | |- context [Z.compare ?a ?b] => destruct (Z.compare_spec a b)
    | H : context [Pos.compare ?a ?b] |- _ =>
        destruct (Pos.compare_spec a b); try discriminate H
    | |- context [Pos.compare ?a ?b] => destruct (Pos.compare_spec a b)
    end;
  subst; simpl in *; try reflexivity; try discriminate; try lia.

Ltac cases_signs :=
  repeat match goal with s : bool |- _ => destruct s end;
  try discriminate; try reflexivity.

Lemma SFeqb_refl x : SFeqb x x = match x with S754_nan => false | _ => true end.
Proof.
  destruct x as [s | s | | s m e]; unfold SFeqb, SFcompare; try (destruct s; reflexivity).
  - reflexivity.
  - rewrite Z.compare_refl, Pos.compare_cont_refl. destruct s; reflexivity.
Qed.

Lemma SFleb_ltb x y :
  x <> S754_nan -> y <> S754_nan -> SFleb x y = negb (SFltb y x).
Proof.
  intros Nx Ny.
  destruct x as [sx | sx | | sx mx ex]; try congruence;
    destruct y as [sy | sy | | sy my ey]; try congruence;
    unfold SFleb, SFltb, SFcompare; cases_signs; cases_compare.
Qed.

Lemma SFleb_trans x y z : SFleb x y = true -> SFleb y z = true -> SFleb x z = true.
Proof.
  destruct x as [sx | sx | | sx mx ex]; destruct y as [sy | sy | | sy my ey];
    destruct z as [sz | sz | | sz mz ez]; unfold SFleb, SFcompare;
    try discriminate; try reflexivity; cases_signs; intros H1 H2; cases_compare.
Qed.

Lemma SFltb_leb x y : SFltb x y = true -> SFleb x y = true.
Proof. unfold SFltb, SFleb. destruct (SFcompare x y) as [[] |]; congruence. Qed.

Lemma SFeqb_not_ltb x y k : SFeqb x k = true -> SFeqb y k = true -> SFltb x y = false.
Proof.
  destruct x as [sx | sx | | sx mx ex]; destruct y as [sy | sy | | sy my ey];
    destruct k as [sk | sk | | sk mk ek]; unfold SFeqb, SFltb, SFcompare;
    try discriminate; try reflexivity; cases_signs; intros H1 H2; cases_compare.
Qed.

Lemma SFeqb_sym x y : SFeqb x y = SFeqb y x.
Proof.
  destruct x as [sx | sx | | sx mx ex]; destruct y as [sy | sy | | sy my ey];
    unfold SFeqb, SFcompare; try reflexivity; cases_signs; cases_compare.
Qed.

Lemma SFltb_trichotomy x y :
  x <> S754_nan -> y <> S754_nan ->
  SFeqb x y = false -> SFltb x y = true \/ SFltb y x = true.
Proof.
  intros Nx Ny.
  destruct x as [sx | sx | | sx mx ex]; try congruence;
    destruct y as [sy | sy | | sy my ey]; try congruence;
    unfold SFeqb, SFltb, SFcompare; cases_signs; intros H; auto; cases_compare; auto.
Qed.

Lemma SFeqb_leb_not_ltb z x y :
  SFeqb z x = true -> SFleb y z = true -> SFltb x y = false.
Proof.
  destruct x as [sx | sx | | sx mx ex]; destruct y as [sy | sy | | sy my ey];
    destruct z as [sz | sz | | sz mz ez]; unfold SFeqb, SFleb, SFltb, SFcompare;
    try discriminate; try reflexivity; cases_signs; intros H1 H2; cases_compare.
Qed.

(** ** The same facts on the primitive numbers *)

Lemma is_nan_Prim2SF x : is_nan x = false -> Prim2SF x <> S754_nan.
Proof.
  unfold is_nan. rewrite FloatAxioms.eqb_spec, SFeqb_refl.
  intros H E. rewrite E in H. discriminate.
Qed.

Lemma Prim2SF_is_nan x : is_nan x = true -> Prim2SF x = S754_nan.
Proof.
  unfold is_nan. rewrite FloatAxioms.eqb_spec, SFeqb_refl.
  destruct (Prim2SF x); simpl; congruence.
Qed.

(** [a - b] is positive exactly when [b < a], for numbers that are not NaN. *)
Lemma sub_pos x y :
  is_nan x = false -> is_nan y = false -> (0 <? x - y)%float = (y <? x)%float.
Proof.
  intros Nx Ny. rewrite !FloatAxioms.ltb_spec, FloatAxioms.sub_spec.
  change (Prim2SF 0) with SFzero.
  apply SFsub_pos; auto using Prim2SF_valid, is_nan_Prim2SF.
Qed.

(** [a - b] is negative exactly when [a < b]. *)
Lemma sub_neg x y :
  is_nan x = false -> is_nan y = false -> (x - y <? 0)%float = (x <? y)%float.
Proof.
  intros Nx Ny. rewrite !FloatAxioms.ltb_spec, FloatAxioms.sub_spec.
  change (Prim2SF 0) with SFzero.
  apply SFsub_neg; auto using Prim2SF_valid, is_nan_Prim2SF.
Qed.

Lemma ltb_nan_l x y : is_nan x = true -> (x <? y)%float = false.
Proof.
  intros H. rewrite FloatAxioms.ltb_spec. pose proof (Prim2SF_is_nan _ H) as E. rewrite E.
  reflexivity.
Qed.

Lemma ltb_nan_r x y : is_nan y = true -> (x <? y)%float = false.
Proof.
  intros H. rewrite FloatAxioms.ltb_spec. pose proof (Prim2SF_is_nan _ H) as E. rewrite E.
  unfold SFltb, SFcompare. destruct (Prim2SF x); reflexivity.
Qed.

Lemma leb_ltb x y :
  is_nan x = false -> is_nan y = false -> (x <=? y)%float = negb (y <? x)%float.
Proof.
  intros Nx Ny. rewrite FloatAxioms.leb_spec, FloatAxioms.ltb_spec.
  apply SFleb_ltb; auto using is_nan_Prim2SF.
Qed.

Lemma leb_trans x y z :
  (x <=? y)%float = true -> (y <=? z)%float = true -> (x <=? z)%float = true.
Proof. rewrite !FloatAxioms.leb_spec. apply SFleb_trans. Qed.

Lemma ltb_leb x y : (x <? y)%float = true -> (x <=? y)%float = true.
Proof. rewrite FloatAxioms.ltb_spec, FloatAxioms.leb_spec. apply SFltb_leb. Qed.

Lemma eqb_not_ltb x y k :
  (x =? k)%float = true -> (y =? k)%float = true -> (x <? y)%float = false.
Proof. rewrite !FloatAxioms.eqb_spec, FloatAxioms.ltb_spec. apply SFeqb_not_ltb. Qed.

Lemma eqb_refl x : is_nan x = false -> (x =? x)%float = true.
Proof. unfold is_nan. destruct (x =? x)%float; [reflexivity | discriminate]. Qed.

Lemma eqb_sym x y : (x =? y)%float = (y =? x)%float.
Proof. rewrite !FloatAxioms.eqb_spec. apply SFeqb_sym. Qed.

Lemma ltb_trichotomy x y :
  is_nan x = false -> is_nan y = false ->
  (x =? y)%float = false -> (x <? y)%float = true \/ (y <? x)%float = true.
Proof.
  intros Nx Ny. rewrite FloatAxioms.eqb_spec, !FloatAxioms.ltb_spec.
  apply SFltb_trichotomy; auto using is_nan_Prim2SF.
Qed.

Lemma eqb_leb_not_ltb z x y :
  (z =? x)%float = true -> (y <=? z)%float = true -> (x <? y)%float = false.
Proof.
  rewrite FloatAxioms.eqb_spec, FloatAxioms.leb_spec, FloatAxioms.ltb_spec.
  apply SFeqb_leb_not_ltb.
Qed.

End F64.
(** * Properties of the aggregation *)

Lemma forEach_body_rows dist dur count i drow trow poi k acc :
  dist !! i = Some drow -> dur !! i = Some trow ->
  forEach_body dist dur count i poi k acc
  = Ok (step acc (PointOfInterest.id poi, converted drow trow (count + k))).
Proof.
  intros Hd Ht. unfold forEach_body, row_of. rewrite Hd, Ht. reflexivity.
Qed.

Lemma forEach_body_no_row dist dur count i poi k acc :
  dist !! i = None \/ dur !! i = None ->
  forEach_body dist dur count i poi k acc = Throw TypeError.
Proof.
  intros [H | H]; unfold forEach_body, row_of.
  - rewrite H. reflexivity.
  - rewrite H. destruct (dist !! i); reflexivity.
Qed.

Lemma forEach_rows dist dur count i drow trow pois :
  dist !! i = Some drow -> dur !! i = Some trow ->
  forall k acc,
    forEach (forEach_body dist dur count i) k pois acc
    = Ok (foldl step acc (entries drow trow count k pois)).
Proof.
  intros Hd Ht. induction pois as [| poi pois IH]; intros k acc; simpl.
  - reflexivity.
  - rewrite (forEach_body_rows _ _ _ _ _ _ _ _ _ Hd Ht). simpl. apply IH.
Qed.

Lemma forEach_no_row dist dur count i poi pois k acc :
  dist !! i = None \/ dur !! i = None ->
  forEach (forEach_body dist dur count i) k (poi :: pois) acc = Throw TypeError.
Proof.
  intros H. simpl. rewrite forEach_body_no_row by exact H. reflexivity.
Qed.

(** Whenever the loop ends normally, its result is the fold over the
    entries read from the anchor's rows. *)
Lemma forEach_Ok_inv dist dur count i pois k acc acc' :
  forEach (forEach_body dist dur count i) k pois acc = Ok acc' ->
  acc' = foldl step acc (entries (rowOr dist i) (rowOr dur i) count k pois)
  /\ (pois <> [] -> is_Some (dist !! i) /\ is_Some (dur !! i)).
Proof.
  destruct pois as [| poi pois].
  - simpl. intros [= <-]. split; [reflexivity | congruence].
  - destruct (dist !! i) as [drow |] eqn:Hd; [destruct (dur !! i) as [trow |] eqn:Ht |].
    + rewrite (forEach_rows _ _ _ _ _ _ _ Hd Ht). intros [= <-].
      unfold rowOr. rewrite Hd, Ht. simpl. split; [reflexivity | eauto].
    + rewrite forEach_no_row by (right; exact Ht). discriminate.
    + rewrite forEach_no_row by (left; exact Hd). discriminate.
Qed.

Lemma updatePlace_Ok_inv dist dur pois count place i p' :
  updatePlace dist dur pois count place i = Ok p' ->
  p' = rebuilt place (length_number pois)
         (foldl step Totals0 (entries (rowOr dist i) (rowOr dur i) count 0 pois))
  /\ (pois <> [] -> is_Some (dist !! i) /\ is_Some (dur !! i)).
Proof.
  unfold updatePlace.
  destruct (forEach _ 0%nat pois Totals0) as [acc | e] eqn:Hf; simpl; [| discriminate].
  intros [= <-]. apply forEach_Ok_inv in Hf as [-> Hrows]. split; [reflexivity | exact Hrows].
Qed.

Lemma updatePlace_rows dist dur pois count place i drow trow :
  dist !! i = Some drow -> dur !! i = Some trow ->
  updatePlace dist dur pois count place i
  = Ok (rebuilt place (length_number pois)
          (foldl step Totals0 (entries drow trow count 0 pois))).
Proof.
  intros Hd Ht. unfold updatePlace. rewrite (forEach_rows _ _ _ _ _ _ _ Hd Ht). reflexivity.
Qed.

(** [mapi] returns normally exactly when every callback does, with the
    results in order. *)
Lemma mapi_Ok_inv {A B} (f : A -> nat -> result B) l :
  forall k ys, mapi f k l = Ok ys ->
    length ys = length l
    /\ forall j x, l !! j = Some x -> exists y, ys !! j = Some y /\ f x (k + j)%nat = Ok y.
Proof.
  induction l as [| x l IH]; intros k ys; simpl.
  - intros [= <-]. split; [reflexivity |]. intros j x Hj. rewrite lookup_nil in Hj. discriminate.
  - destruct (f x k) as [y | e] eqn:Hx; simpl; [| discriminate].
    destruct (mapi f (S k) l) as [ys' | e] eqn:Hl; simpl; [| discriminate].
    intros [= <-]. destruct (IH _ _ Hl) as [Hlen Hall]. split; [simpl; congruence |].
    intros [| j] x' Hj; simpl in *.
    + injection Hj as <-. exists y. rewrite Nat.add_0_r. auto.
    + destruct (Hall _ _ Hj) as (y' & Hy' & Hf). exists y'. split; [exact Hy' |].
      replace (k + S j)%nat with (S k + j)%nat by lia. exact Hf.
Qed.

Lemma mapi_Ok_intro {A B} (f : A -> nat -> result B) (g : A -> nat -> B) l :
  forall k, (forall j x, l !! j = Some x -> f x (k + j)%nat = Ok (g x (k + j)%nat)) ->
    mapi f k l = Ok (imap (fun j x => g x (k + j)%nat) l).
Proof.
  induction l as [| x l IH]; intros k H; simpl.
  - reflexivity.
  - rewrite <- (Nat.add_0_r k) at 1. rewrite (H 0%nat x eq_refl). simpl.
    rewrite (IH (S k)).
    + simpl. rewrite Nat.add_0_r. f_equal. f_equal. apply imap_ext. intros j y _. simpl.
      f_equal. lia.
    + intros j y Hj. replace (S k + j)%nat with (k + S j)%nat by lia. apply (H (S j)). exact Hj.
Qed.


(** *** The locals after the loop *)

Lemma entries_lookup drow trow count pois :
  forall k j, entries drow trow count k pois !! j
    = (fun poi => (PointOfInterest.id poi, converted drow trow (count + (k + j)))) <$> pois !! j.
Proof.
  induction pois as [| poi pois IH]; intros k j; simpl.
  - rewrite !lookup_nil. reflexivity.
  - destruct j as [| j]; simpl.
    + rewrite Nat.add_0_r. reflexivity.
    + rewrite IH. replace (S k + j)%nat with (k + S j)%nat by lia. reflexivity.
Qed.







Lemma lookup_foldl_step_absent es k :
  forall acc, (forall e, e ∈ es -> e.1 <> k) ->
    acc_distancesToPOIs (foldl step acc es) !! k = acc_distancesToPOIs acc !! k.
Proof.
  induction es as [| e es IH]; intros acc H; simpl; [reflexivity |].
  rewrite IH.
  - simpl. apply lookup_insert_ne. apply H. left.
  - intros e' He'. apply H. right. exact He'.
Qed.

Lemma lookup_foldl_step_last es k v :
  forall j acc, es !! j = Some (k, v) ->
    (forall j' e, (j < j')%nat -> es !! j' = Some e -> e.1 <> k) ->
    acc_distancesToPOIs (foldl step acc es) !! k = Some v.
Proof.
  induction es as [| e es IH]; intros j acc Hj Hlast.
  - rewrite lookup_nil in Hj. discriminate.
  - destruct j as [| j]; simpl in *.
    + injection Hj as ->. rewrite lookup_foldl_step_absent.
      * simpl. apply lookup_insert_eq.
      * intros e' He'. apply list_elem_of_lookup in He' as [j' Hj'].
        apply (Hlast (S j')); [lia | exact Hj'].
    + apply (IH j); [exact Hj |]. intros j' e' Hlt He'. apply (Hlast (S j')); [lia | exact He'].
Qed.

(** The entry stored for the last target carrying an id. *)
Lemma lookup_entries_last drow trow count pois j poi :
  last_with_id pois j poi ->
  acc_distancesToPOIs (foldl step Totals0 (entries drow trow count 0 pois))
    !! PointOfInterest.id poi = Some (converted drow trow (count + j)).
Proof.
  intros [Hj Hlast]. apply (lookup_foldl_step_last _ _ _ j).
  - rewrite entries_lookup, Hj. reflexivity.
  - intros j' e Hlt He. rewrite entries_lookup in He.
    destruct (pois !! j') as [poi' |] eqn:Hj'; [| discriminate].
    injection He as <-. simpl. apply (Hlast j'); [exact Hlt | exact Hj'].
Qed.


(** *** The whole aggregation *)

Lemma fetch_request send st :
  fetchMapBoxDirectionsMatrix send (allLocations st) (transportProfile st)
  = match send (request st) with
    | SendRejected e => ([GetMatrix (request st)], Throw e)
    | SendResolved statusCode body =>
        if negb (statusCode =? 200)
        then ([GetMatrix (request st)], Throw (HttpErrorFromMapBox statusCode))
        else ([GetMatrix (request st)], Ok body)
    end.
Proof. reflexivity. Qed.

(** A normal end of the [try] block: the provider answered 200, was called
    once, and every anchor was rebuilt from its own rows. *)
Lemma aggregate_Ok_inv send st log ps' :
  aggregate send st = (log, Ok ps') ->
  exists body,
    send (request st) = SendResolved 200 body
    /\ log = [GetMatrix (request st)]
    /\ length ps' = length (placesToStay st)
    /\ forall i place, placesToStay st !! i = Some place ->
         ps' !! i = Some (rebuilt place (length_number (pointsOfInterest st))
                            (foldl step Totals0
                               (entries (rowOr (distancesOf body) i) (rowOr (durationsOf body) i)
                                  (length (placesToStay st)) 0 (pointsOfInterest st))))
         /\ (pointsOfInterest st <> [] ->
             is_Some (distancesOf body !! i) /\ is_Some (durationsOf body !! i)).
Proof.
  unfold aggregate. rewrite fetch_request.
  destruct (send (request st)) as [e | code body] eqn:Hsend; simpl; [discriminate |].
  destruct (code =? 200) eqn:Hcode; simpl; [| discriminate].
  apply Z.eqb_eq in Hcode as ->.
  destruct (mapi _ 0%nat (placesToStay st)) as [ys | e] eqn:Hmap; simpl; [| discriminate].
  intros [= <- <-]. exists body. split; [reflexivity |]. split; [reflexivity |].
  apply mapi_Ok_inv in Hmap as [Hlen Hall]. split; [exact Hlen |].
  intros i place Hi. destruct (Hall _ _ Hi) as (y & Hy & Hf). simpl in Hf.
  apply updatePlace_Ok_inv in Hf as [-> Hrows]. split; [exact Hy | exact Hrows].
Qed.

Lemma updatePlace_Ok_intro dist dur pois count place i :
  (pois <> [] -> is_Some (dist !! i) /\ is_Some (dur !! i)) ->
  updatePlace dist dur pois count place i
  = Ok (rebuilt place (length_number pois)
          (foldl step Totals0 (entries (rowOr dist i) (rowOr dur i) count 0 pois))).
Proof.
  intros Hrows. destruct pois as [| poi pois]; [reflexivity |].
  destruct Hrows as [[drow Hd] [trow Ht]]; [discriminate |].
  rewrite (updatePlace_rows _ _ _ _ _ _ _ _ Hd Ht). unfold rowOr. rewrite Hd, Ht. reflexivity.
Qed.

(** Conversely the block ends normally when the provider answers 200 with
    a row for every anchor in both matrices. *)
Lemma aggregate_Ok_intro send st body :
  send (request st) = SendResolved 200 body ->
  (pointsOfInterest st <> [] ->
   forall i, (i < length (placesToStay st))%nat ->
     is_Some (distancesOf body !! i) /\ is_Some (durationsOf body !! i)) ->
  aggregate send st
  = ([GetMatrix (request st)],
     Ok (imap (fun i place =>
                 rebuilt place (length_number (pointsOfInterest st))
                   (foldl step Totals0
                      (entries (rowOr (distancesOf body) i) (rowOr (durationsOf body) i)
                         (length (placesToStay st)) 0 (pointsOfInterest st))))
           (placesToStay st))).
Proof.
  intros Hsend Hrows. unfold aggregate. rewrite fetch_request, Hsend. simpl.
  rewrite (mapi_Ok_intro _ (fun place i =>
             rebuilt place (length_number (pointsOfInterest st))
               (foldl step Totals0
                  (entries (rowOr (distancesOf body) i) (rowOr (durationsOf body) i)
                     (length (placesToStay st)) 0 (pointsOfInterest st))))).
  - reflexivity.
  - intros j place Hj. simpl. fold (distancesOf body) (durationsOf body).
    apply updatePlace_Ok_intro. intros Hne. apply Hrows; [exact Hne |].
    eapply lookup_lt_Some. exact Hj.
Qed.

(** A failed routing call ends the block with the provider's error. *)
Lemma aggregate_provider_error send st err :
  fetchMapBoxDirectionsMatrix send (allLocations st) (transportProfile st)
    = ([GetMatrix (request st)], Throw err) ->
  aggregate send st = ([GetMatrix (request st)], Throw err).
Proof. unfold aggregate. intros ->. reflexivity. Qed.

Lemma nonempty_guard {A B} (l : list A) (l' : list B) :
  l <> [] -> l' <> [] -> (length l =? 0)%nat || (length l' =? 0)%nat = false.
Proof. destruct l, l'; simpl; congruence. Qed.

Lemma aggregate_Ok_eq send st log ps' :
  aggregate send st = (log, Ok ps') ->
  exists body,
    send (request st) = SendResolved 200 body
    /\ log = [GetMatrix (request st)]
    /\ ps' = rebuiltAll st body
    /\ (pointsOfInterest st <> [] ->
        forall i, (i < length (placesToStay st))%nat ->
          is_Some (distancesOf body !! i) /\ is_Some (durationsOf body !! i)).
Proof.
  intros H. apply aggregate_Ok_inv in H as (body & Hsend & Hlog & Hlen & Hall).
  exists body. split; [exact Hsend |]. split; [exact Hlog |]. split.
  - apply list_eq. intros i. unfold rebuiltAll. rewrite list_lookup_imap.
    destruct (placesToStay st !! i) as [place |] eqn:Hi; simpl.
    + apply Hall. exact Hi.
    + apply lookup_ge_None. rewrite Hlen. apply lookup_ge_None. exact Hi.
  - intros Hne i Hi. apply lookup_lt_is_Some in Hi as [place Hi].
    destruct (Hall _ _ Hi) as [_ Hrows]. apply Hrows. exact Hne.
Qed.

Lemma rebuiltAll_lookup st body i p' :
  rebuiltAll st body !! i = Some p' ->
  exists place, placesToStay st !! i = Some place
    /\ p' = rebuilt place (length_number (pointsOfInterest st))
              (foldl step Totals0
                 (entries (rowOr (distancesOf body) i) (rowOr (durationsOf body) i)
                    (length (placesToStay st)) 0 (pointsOfInterest st))).
Proof.
  unfold rebuiltAll. rewrite list_lookup_imap.
  destruct (placesToStay st !! i) as [place |]; simpl; [| discriminate].
  intros [= <-]. exists place. auto.
Qed.

(** Only the target columns of a row are read. *)
Lemma cell_drop row count j : cell row (count + j) = cell (drop count row) j.
Proof. unfold cell. rewrite lookup_drop. reflexivity. Qed.

Lemma entries_target_columns drow trow drow' trow' count pois :
  drop count drow = drop count drow' -> drop count trow = drop count trow' ->
  forall k, entries drow trow count k pois = entries drow' trow' count k pois.
Proof.
  intros Hd Ht. induction pois as [| poi pois IH]; intros k; simpl; [reflexivity |].
  rewrite IH. unfold converted. rewrite !cell_drop, Hd, Ht. reflexivity.
Qed.

Lemma rowOr_drop (m : matrix) count i :
  drop count (rowOr m i) = rowOr (drop count <$> m) i.
Proof.
  unfold rowOr. rewrite list_lookup_fmap. destruct (m !! i); simpl; [reflexivity |].
  apply drop_nil.
Qed.

Lemma is_Some_lookup_map_drop (m m' : matrix) count i :
  drop count <$> m = drop count <$> m' -> is_Some (m !! i) -> is_Some (m' !! i).
Proof.
  intros Heq H. apply lookup_lt_is_Some. apply lookup_lt_is_Some in H.
  assert (Hlen : length (drop count <$> m) = length (drop count <$> m'))
    by (rewrite Heq; reflexivity).
  rewrite !length_fmap in Hlen. lia.
Qed.

Lemma rebuiltAll_target_columns st body body' :
  drop (length (placesToStay st)) <$> distancesOf body'
    = drop (length (placesToStay st)) <$> distancesOf body ->
  drop (length (placesToStay st)) <$> durationsOf body'
    = drop (length (placesToStay st)) <$> durationsOf body ->
  rebuiltAll st body' = rebuiltAll st body.
Proof.
  intros Hd Ht. unfold rebuiltAll. apply imap_ext. intros i place _. simpl.
  f_equal. f_equal. apply entries_target_columns.
  - rewrite !rowOr_drop, Hd. reflexivity.
  - rewrite !rowOr_drop, Ht. reflexivity.
Qed.

(** Nothing of the anchors' derived fields is read. *)
Lemma rebuilt_clearDerived place n acc : rebuilt (clearDerived place) n acc = rebuilt place n acc.
Proof. reflexivity. Qed.





(** Whatever the outcome, a run on non-empty inputs calls the provider
    once, with the request built from the state, and reports at most one
    error after it. *)
Lemma aggregate_log send st :
  exists r, aggregate send st = ([GetMatrix (request st)], r).
Proof.
  unfold aggregate. rewrite fetch_request.
  destruct (send (request st)) as [e | code body]; simpl; [eauto |].
  destruct (negb (code =? 200)); simpl; [eauto |].
  destruct (mapi _ 0%nat (placesToStay st)); simpl; eauto.
Qed.

Lemma calculateDistances_log send st :
  placesToStay st <> [] -> pointsOfInterest st <> [] ->
  snd (calculateDistances send st) = [GetMatrix (request st)]
  \/ exists e, snd (calculateDistances send st) = [GetMatrix (request st); ConsoleError e].
Proof.
  intros Hp Ht. unfold calculateDistances. rewrite (nonempty_guard _ _ Hp Ht).
  destruct (aggregate_log send st) as [[ps | e] ->]; simpl; eauto.
Qed.

(** ** The aggregation on the test points *)

Example scenario_aggregate :
  aggregate scenario_send scenario = ([GetMatrix (request scenario)], Ok scenario_expected).
Proof. vm_compute. reflexivity. Qed.

Example unreachable_aggregate :
  aggregate unreachable_send scenario = ([GetMatrix (request scenario)], Ok unreachable_result).
Proof. vm_compute. reflexivity. Qed.

(** In the scenario the average times the number of targets is the total. *)
Example scenario_average_times_n :
  (1.242742 * length_number (pointsOfInterest scenario))%float = 2.485484%float.
Proof. vm_compute. reflexivity. Qed.

Example failing_aggregate :
  calculateDistances failing_send stale
  = (stale, [GetMatrix (request stale); ConsoleError (HttpErrorFromMapBox 500)]).
Proof. vm_compute. reflexivity. Qed.

(** ** Empty inputs *)

(** C5. With no anchor or no target, [calculateDistances] changes nothing:
    the state it leaves is the state it was given, anchors and their derived
    fields included, and nothing is observed of it, so that the routing
    provider is not called. *)
Theorem calculateDistances_empty_noop send st :
  placesToStay st = [] \/ pointsOfInterest st = [] ->
  calculateDistances send st = (st, []).
Proof.
  intros [H | H]; unfold calculateDistances; rewrite H; simpl.
  - reflexivity.
  - rewrite orb_true_r. reflexivity.
Qed.

Lemma calculateDistances_empty_noop_witness :
  calculateDistances scenario_send no_targets = (no_targets, []).
Proof. apply calculateDistances_empty_noop. right. reflexivity. Defined.

(** ** Provider failures *)

(** C4. When the routing call fails, because [send] rejects or because it
    resolves with a status other than 200 (for which
    [fetchMapBoxDirectionsMatrix] throws), the aggregation ends with that
    provider error, and [calculateDistances] leaves the whole state, hence
    every derived field of every anchor, exactly as it was; on non-empty
    inputs the provider was called once and the error reported. *)
Theorem provider_failure_keeps_state send st err :
  (send (request st) = SendRejected err
   \/ exists statusCode body,
        send (request st) = SendResolved statusCode body
        /\ statusCode <> 200 /\ err = HttpErrorFromMapBox statusCode) ->
  fetchMapBoxDirectionsMatrix send (allLocations st) (transportProfile st)
    = ([GetMatrix (request st)], Throw err)
  /\ aggregate send st = ([GetMatrix (request st)], Throw err)
  /\ fst (calculateDistances send st) = st
  /\ (placesToStay st <> [] -> pointsOfInterest st <> [] ->
      snd (calculateDistances send st) = [GetMatrix (request st); ConsoleError err]).
Proof.
  intros H.
  assert (Hfetch : fetchMapBoxDirectionsMatrix send (allLocations st) (transportProfile st)
                   = ([GetMatrix (request st)], Throw err)).
  { rewrite fetch_request. destruct H as [-> | (code & body & -> & Hcode & ->)]; [reflexivity |].
    apply Z.eqb_neq in Hcode. rewrite Hcode. reflexivity. }
  pose proof (aggregate_provider_error _ _ _ Hfetch) as Hagg.
  split; [exact Hfetch |]. split; [exact Hagg |]. split.
  - unfold calculateDistances. rewrite Hagg. destruct (_ || _); reflexivity.
  - intros Hp Ht. unfold calculateDistances.
    rewrite (nonempty_guard _ _ Hp Ht), Hagg. reflexivity.
Qed.

Lemma provider_failure_keeps_state_witness :
  fetchMapBoxDirectionsMatrix failing_send (allLocations stale) (transportProfile stale)
    = ([GetMatrix (request stale)], Throw (HttpErrorFromMapBox 500))
  /\ aggregate failing_send stale = ([GetMatrix (request stale)], Throw (HttpErrorFromMapBox 500))
  /\ fst (calculateDistances failing_send stale) = stale
  /\ (placesToStay stale <> [] -> pointsOfInterest stale <> [] ->
      snd (calculateDistances failing_send stale)
      = [GetMatrix (request stale); ConsoleError (HttpErrorFromMapBox 500)]).
Proof.
  apply provider_failure_keeps_state. right.
  exists 500, {| distances := None; durations := None |}.
  split; [reflexivity |]. split; [lia | reflexivity].
Defined.

(** ** Positional reading of the matrix *)

(** C2. On non-empty inputs [calculateDistances] calls the provider exactly
    once, with the anchors' coordinates followed by the targets' coordinates,
    each in list order.  When the aggregation ends normally, the pair stored
    for anchor [i] and target [j] is read at row [i], column [|anchors| + j]
    of both matrices, and the columns below [|anchors|] are not read: a
    response that differs only there gives the same anchors. *)
Theorem matrix_positional_reading send st :
  placesToStay st <> [] -> pointsOfInterest st <> [] ->
  let count := length (placesToStay st) in
  (exists rest,
     snd (calculateDistances send st)
     = GetMatrix
         {| req_profile := transportProfile st;
            req_annotations := [ann_duration; ann_distance];
            req_points :=
              (fun l => (lon l, lat l)) <$>
                (((fun place => coordinates (PlaceToStay.location place)) <$> placesToStay st)
                 ++ ((fun poi => coordinates (PointOfInterest.location poi))
                       <$> pointsOfInterest st)) |} :: rest
     /\ forall req, GetMatrix req ∉ rest)
  /\ forall log ps',
       aggregate send st = (log, Ok ps') ->
       exists body,
         send (request st) = SendResolved 200 body
         /\ (forall i p' j poi,
               ps' !! i = Some p' -> last_with_id (pointsOfInterest st) j poi ->
               exists drow trow dmap,
                 distancesOf body !! i = Some drow
                 /\ durationsOf body !! i = Some trow
                 /\ PlaceToStay.distancesToPOIs p' = Some dmap
                 /\ dmap !! PointOfInterest.id poi
                    = Some {| distance :=
                                (ToNumber (cell drow (count + j)) / 1000 * 0.621371)%float;
                              duration := (ToNumber (cell trow (count + j)) / 60)%float |})
         /\ (forall send' body',
               send' (request st) = SendResolved 200 body' ->
               drop count <$> distancesOf body' = drop count <$> distancesOf body ->
               drop count <$> durationsOf body' = drop count <$> durationsOf body ->
               aggregate send' st = (log, Ok ps')).
Proof.
  intros Hp Ht count. split.
  { destruct (calculateDistances_log send st Hp Ht) as [-> | [e ->]].
    - exists []. split; [reflexivity |]. intros req H. inversion H.
    - exists [ConsoleError e]. split; [reflexivity |]. intros req H.
      apply list_elem_of_singleton in H. discriminate. }
  intros log ps' Hagg.
  apply aggregate_Ok_eq in Hagg as (body & Hsend & -> & -> & Hrows).
  specialize (Hrows Ht).
  exists body. split; [exact Hsend |]. split.
  - intros i p' j poi Hi Hlast.
    apply rebuiltAll_lookup in Hi as (place & Hplace & ->).
    destruct (Hrows i) as [[drow Hd] [trow Hr]]; [eapply lookup_lt_Some; exact Hplace |].
    exists drow, trow. eexists. split; [exact Hd |]. split; [exact Hr |].
    split; [reflexivity |]. simpl.
    rewrite (lookup_entries_last _ _ _ _ _ _ Hlast). unfold rowOr. rewrite Hd, Hr. reflexivity.
  - intros send' body' Hsend' Hd Hr.
    rewrite (aggregate_Ok_intro send' st body' Hsend').
    + fold (rebuiltAll st body'). rewrite (rebuiltAll_target_columns st body body' Hd Hr).
      reflexivity.
    + intros _ i Hi. destruct (Hrows i Hi) as [H1 H2]. split.
      * eapply is_Some_lookup_map_drop; [symmetry; exact Hd | exact H1].
      * eapply is_Some_lookup_map_drop; [symmetry; exact Hr | exact H2].
Qed.

Lemma matrix_positional_reading_witness :
  aggregate scenario_send_selfcol scenario
  = ([GetMatrix (request scenario)], Ok scenario_expected).
Proof.
  destruct (matrix_positional_reading scenario_send scenario) as [_ Hread].
  - discriminate.
  - discriminate.
  - destruct (Hread [GetMatrix (request scenario)] scenario_expected)
      as (body & Hsend & _ & Hcols).
    + vm_compute. reflexivity.
    + unfold scenario_send in Hsend. injection Hsend as <-.
      apply (Hcols scenario_send_selfcol scenario_body_selfcol); reflexivity.
Defined.

(** ** Units *)

(** C3. In a normal aggregation the pair stored for an anchor and a target
    whose raw cells are the numbers [meters] and [seconds] is
    [meters / 1000 * 0.621371] miles and [seconds / 60] minutes, computed in
    that order in binary64; so 1000 meters are stored as [0.621371] and 120
    seconds as [2]. *)
Theorem unit_conversion send st log ps' i p' j poi :
  aggregate send st = (log, Ok ps') ->
  ps' !! i = Some p' -> last_with_id (pointsOfInterest st) j poi ->
  exists body drow trow dmap v,
    send (request st) = SendResolved 200 body
    /\ distancesOf body !! i = Some drow
    /\ durationsOf body !! i = Some trow
    /\ PlaceToStay.distancesToPOIs p' = Some dmap
    /\ dmap !! PointOfInterest.id poi = Some v
    /\ (forall meters, cell drow (length (placesToStay st) + j) = JNumber meters ->
          distance v = (meters / 1000 * 0.621371)%float)
    /\ (forall seconds, cell trow (length (placesToStay st) + j) = JNumber seconds ->
          duration v = (seconds / 60)%float)
    /\ (cell drow (length (placesToStay st) + j) = JNumber 1000 -> distance v = 0.621371%float)
    /\ (cell trow (length (placesToStay st) + j) = JNumber 120 -> duration v = 2%float).
Proof.
  intros Hagg Hi Hlast.
  apply aggregate_Ok_eq in Hagg as (body & Hsend & -> & -> & Hrows).
  assert (Hne : pointsOfInterest st <> []).
  { destruct Hlast as [Hj _]. intros E. rewrite E, lookup_nil in Hj. discriminate. }
  apply rebuiltAll_lookup in Hi as (place & Hplace & ->).
  destruct (Hrows Hne i) as [[drow Hd] [trow Hr]]; [eapply lookup_lt_Some; exact Hplace |].
  exists body, drow, trow. eexists. eexists.
  split; [exact Hsend |]. split; [exact Hd |]. split; [exact Hr |].
  split; [reflexivity |]. split.
  { simpl. rewrite (lookup_entries_last _ _ _ _ _ _ Hlast). unfold rowOr. rewrite Hd, Hr.
    reflexivity. }
  simpl. repeat split; intros; match goal with H : cell _ _ = _ |- _ => rewrite H end;
    reflexivity.
Qed.

Lemma unit_conversion_witness :
  exists dmap v,
    PlaceToStay.distancesToPOIs scenario_anchor = Some dmap
    /\ dmap !! "T1" = Some v
    /\ distance v = 0.621371%float.
Proof.
  destruct (unit_conversion scenario_send scenario [GetMatrix (request scenario)]
              scenario_expected 0 scenario_anchor 0 (target "T1"))
    as (body & drow & trow & dmap & v & Hsend & Hd & Hr & Hmap & Hv & _ & _ & H1000 & _).
  - vm_compute. reflexivity.
  - reflexivity.
  - split; [reflexivity |]. intros [| [| j']] poi' Hlt Hj'; [lia | | discriminate].
    injection Hj' as <-. discriminate.
  - unfold scenario_send in Hsend. injection Hsend as <-. injection Hd as <-.
    exists dmap, v. split; [exact Hmap |]. split; [exact Hv |]. apply H1000. reflexivity.
Defined.

(** ** Totals and averages *)



(** ** Replacement of the derived fields *)



(** ** Unreachable pairs *)

Example missing_row_example :
  calculateDistances
    (fun _ => SendResolved 200 {| distances := Some [[JNumber 0; JNumber 5]]; durations := None |})
    scenario
  = (scenario, [GetMatrix (request scenario); ConsoleError TypeError]).
Proof. vm_compute. reflexivity. Qed.




(** * Properties of the ranking *)

Example ranked_input_average :
  PlaceToStay.id <$> rank average ranked_input = ["new"; "near1"; "near2"; "far"].
Proof. vm_compute. reflexivity. Qed.

Example ranked_input_cumulative :
  PlaceToStay.id <$> rank cumulative ranked_input = ["new"; "near2"; "far"; "near1"].
Proof. vm_compute. reflexivity. Qed.

Lemma or_zero_not_nan x : is_nan (or_zero x) = false.
Proof.
  destruct x as [v |]; simpl; [| reflexivity].
  destruct (is_nan v) eqn:Hn; simpl; [reflexivity |].
  destruct (is_zero v); [reflexivity | exact Hn].
Qed.

Lemma sortKey_not_nan mode a : is_nan (sortKey mode a) = false.
Proof. destruct mode; apply or_zero_not_nan. Qed.

(** The callback is consistent: its sign is the order of the keys, so
    that every stable sort gives the result of the insertion. *)
Lemma SortCompare_neg mode a b :
  (SortCompare (compareFn mode) a b <? 0)%float = (sortKey mode a <? sortKey mode b)%float.
Proof.
  unfold SortCompare, compareFn.
  rewrite <- (F64.sub_neg _ _ (sortKey_not_nan mode a) (sortKey_not_nan mode b)).
  destruct (is_nan (sortKey mode a - sortKey mode b)) eqn:Hn; [| reflexivity].
  rewrite (F64.ltb_nan_l _ _ Hn). reflexivity.
Qed.

Lemma SortCompare_pos mode a b :
  (0 <? SortCompare (compareFn mode) a b)%float = (sortKey mode b <? sortKey mode a)%float.
Proof.
  unfold SortCompare, compareFn.
  rewrite <- (F64.sub_pos _ _ (sortKey_not_nan mode a) (sortKey_not_nan mode b)).
  destruct (is_nan (sortKey mode a - sortKey mode b)) eqn:Hn; [| reflexivity].
  rewrite (F64.ltb_nan_r _ _ Hn). reflexivity.
Qed.

Section Sorting.

Variable mode : DistanceCalculationMode.

Lemma sort_insert_cons x y rest :
  sort_insert (compareFn mode) x (y :: rest)
  = if (sortKey mode y <? sortKey mode x)%float
    then y :: sort_insert (compareFn mode) x rest
    else x :: y :: rest.
Proof. simpl. rewrite SortCompare_pos. reflexivity. Qed.

Lemma sort_insert_perm x l : sort_insert (compareFn mode) x l ≡ₚ x :: l.
Proof.
  induction l as [| y l IH]; [reflexivity |].
  rewrite sort_insert_cons. destruct (_ <? _)%float; [| reflexivity].
  rewrite IH. apply Permutation_swap.
Qed.

Lemma rank_perm l : rank mode l ≡ₚ l.
Proof.
  induction l as [| x l IH]; [reflexivity |].
  unfold rank in *. simpl. rewrite sort_insert_perm, IH. reflexivity.
Qed.

Lemma key_le_total a b : (sortKey mode b <? sortKey mode a)%float = false -> key_le mode a b.
Proof.
  intros H. unfold key_le.
  rewrite F64.leb_ltb by apply sortKey_not_nan. rewrite H. reflexivity.
Qed.

Lemma key_le_not_lt a b : key_le mode a b -> (sortKey mode b <? sortKey mode a)%float = false.
Proof.
  unfold key_le. rewrite F64.leb_ltb by apply sortKey_not_nan.
  destruct (_ <? _)%float; [discriminate | reflexivity].
Qed.

Lemma key_le_trans a b c : key_le mode a b -> key_le mode b c -> key_le mode a c.
Proof. apply F64.leb_trans. Qed.

Lemma sort_insert_sorted x l :
  StronglySorted (key_le mode) l -> StronglySorted (key_le mode) (sort_insert (compareFn mode) x l).
Proof.
  induction 1 as [| y l Hl IH Hy].
  - simpl. repeat constructor.
  - rewrite sort_insert_cons. destruct (_ <? _)%float eqn:Hlt.
    + constructor; [exact IH |].
      rewrite sort_insert_perm. constructor; [| exact Hy].
      apply F64.ltb_leb. exact Hlt.
    + pose proof (key_le_total _ _ Hlt) as Hxy.
      constructor; [constructor; assumption |].
      constructor; [exact Hxy |].
      eapply Forall_impl; [exact Hy |]. intros z Hz. exact (key_le_trans _ _ _ Hxy Hz).
Qed.

Lemma rank_sorted l : StronglySorted (key_le mode) (rank mode l).
Proof.
  induction l as [| x l IH]; [constructor |]. apply sort_insert_sorted. exact IH.
Qed.

Lemma sort_insert_head x l :
  Forall (key_le mode x) l -> sort_insert (compareFn mode) x l = x :: l.
Proof.
  destruct l as [| y l]; [reflexivity |]. intros H. apply Forall_cons_1 in H as [Hxy _].
  rewrite sort_insert_cons, (key_le_not_lt _ _ Hxy). reflexivity.
Qed.

Lemma rank_of_sorted l : StronglySorted (key_le mode) l -> rank mode l = l.
Proof.
  induction 1 as [| x l Hl IH Hx]; [reflexivity |].
  unfold rank in *. simpl. rewrite IH. apply sort_insert_head. exact Hx.
Qed.

(** Anchors with equal keys do not pass one another. *)
Lemma filter_sort_insert k x l :
  List.filter (fun a => (sortKey mode a =? k)%float) (sort_insert (compareFn mode) x l)
  = List.filter (fun a => (sortKey mode a =? k)%float) (x :: l).
Proof.
  induction l as [| y l IH]; [reflexivity |].
  rewrite sort_insert_cons. destruct (_ <? _)%float eqn:Hlt; [| reflexivity].
  simpl in *. rewrite IH.
  destruct (sortKey mode x =? k)%float eqn:Hx; [| reflexivity].
  destruct (sortKey mode y =? k)%float eqn:Hy; [| reflexivity].
  rewrite (F64.eqb_not_ltb _ _ _ Hy Hx) in Hlt. discriminate.
Qed.

Lemma filter_rank k l :
  List.filter (fun a => (sortKey mode a =? k)%float) (rank mode l)
  = List.filter (fun a => (sortKey mode a =? k)%float) l.
Proof.
  induction l as [| x l IH]; [reflexivity |].
  unfold rank, Array_sort in *. simpl foldr. rewrite filter_sort_insert. simpl.
  rewrite IH. reflexivity.
Qed.

(** *** The result does not depend on the sorting algorithm

    A sequence sorted by key that keeps, for every key, the anchors of that
    key in their order is determined: two such sequences are equal. *)

Lemma filter_key_head k x l :
  (sortKey mode x =? k)%float = true ->
  List.filter (fun a => (sortKey mode a =? k)%float) (x :: l)
  = x :: List.filter (fun a => (sortKey mode a =? k)%float) l.
Proof. intros H. simpl. rewrite H. reflexivity. Qed.

Lemma sorted_head_least x l z :
  StronglySorted (key_le mode) (x :: l) -> z ∈ x :: l ->
  (sortKey mode z <? sortKey mode x)%float = false.
Proof.
  intros Hs Hz. apply StronglySorted_inv in Hs as [_ Hx].
  apply elem_of_cons in Hz as [-> | Hz].
  - apply key_le_not_lt. unfold key_le.
    rewrite F64.leb_ltb by apply sortKey_not_nan.
    destruct (_ <? _)%float eqn:E; [| reflexivity].
    pose proof (F64.ltb_leb _ _ E) as Hle.
    rewrite F64.leb_ltb, E in Hle by apply sortKey_not_nan. discriminate.
  - apply key_le_not_lt. rewrite Forall_forall in Hx. apply Hx. exact Hz.
Qed.

Lemma filter_key_elem k x l :
  (sortKey mode x =? k)%float = true ->
  forall l', List.filter (fun a => (sortKey mode a =? k)%float) (x :: l)
             = List.filter (fun a => (sortKey mode a =? k)%float) l' ->
    exists z, z ∈ l' /\ (sortKey mode z =? k)%float = true.
Proof.
  intros Hx l' H. rewrite (filter_key_head _ _ _ Hx) in H.
  assert (Hin : In x (List.filter (fun a => (sortKey mode a =? k)%float) l')).
  { rewrite <- H. left. reflexivity. }
  apply filter_In in Hin as [Hin Hk]. exists x. split; [| exact Hk].
  apply list_elem_of_In. exact Hin.
Qed.

(** The heads of two such sequences have equal keys. *)
Lemma sorted_heads_same_key x l1 y l2 :
  StronglySorted (key_le mode) (x :: l1) -> StronglySorted (key_le mode) (y :: l2) ->
  (forall k, List.filter (fun a => (sortKey mode a =? k)%float) (x :: l1)
             = List.filter (fun a => (sortKey mode a =? k)%float) (y :: l2)) ->
  (sortKey mode x =? sortKey mode y)%float = true.
Proof.
  intros H1 H2 Hf.
  destruct (sortKey mode x =? sortKey mode y)%float eqn:E; [reflexivity | exfalso].
  destruct (F64.ltb_trichotomy _ _ (sortKey_not_nan mode x) (sortKey_not_nan mode y) E)
    as [Hlt | Hlt].
  - destruct (filter_key_elem (sortKey mode x) x l1
                (F64.eqb_refl _ (sortKey_not_nan mode x)) (y :: l2) (Hf _)) as (z & Hz & Hk).
    pose proof (sorted_head_least _ _ _ H2 Hz) as Hzy.
    assert (Hle : (sortKey mode y <=? sortKey mode z)%float = true).
    { rewrite F64.leb_ltb, Hzy by apply sortKey_not_nan. reflexivity. }
    rewrite (F64.eqb_leb_not_ltb _ _ _ Hk Hle) in Hlt. discriminate.
  - destruct (filter_key_elem (sortKey mode y) y l2
                (F64.eqb_refl _ (sortKey_not_nan mode y)) (x :: l1) (eq_sym (Hf _)))
      as (z & Hz & Hk).
    pose proof (sorted_head_least _ _ _ H1 Hz) as Hzx.
    assert (Hle : (sortKey mode x <=? sortKey mode z)%float = true).
    { rewrite F64.leb_ltb, Hzx by apply sortKey_not_nan. reflexivity. }
    rewrite (F64.eqb_leb_not_ltb _ _ _ Hk Hle) in Hlt. discriminate.
Qed.

Lemma stable_sorted_unique l1 :
  forall l2,
    StronglySorted (key_le mode) l1 -> StronglySorted (key_le mode) l2 ->
    (forall k, List.filter (fun a => (sortKey mode a =? k)%float) l1
               = List.filter (fun a => (sortKey mode a =? k)%float) l2) ->
    l1 = l2.
Proof.
  induction l1 as [| x l1 IH]; intros [| y l2] H1 H2 Hf.
  - reflexivity.
  - specialize (Hf (sortKey mode y)).
    rewrite (filter_key_head _ _ _ (F64.eqb_refl _ (sortKey_not_nan mode y))) in Hf.
    discriminate.
  - specialize (Hf (sortKey mode x)).
    rewrite (filter_key_head _ _ _ (F64.eqb_refl _ (sortKey_not_nan mode x))) in Hf.
    discriminate.
  - pose proof (sorted_heads_same_key _ _ _ _ H1 H2 Hf) as Hxy.
    assert (Hhead : x = y).
    { pose proof (Hf (sortKey mode y)) as H.
      rewrite (filter_key_head _ _ _ Hxy) in H.
      rewrite (filter_key_head _ _ _ (F64.eqb_refl _ (sortKey_not_nan mode y))) in H.
      congruence. }
    subst y. f_equal. apply IH.
    + apply StronglySorted_inv in H1 as [H1 _]. exact H1.
    + apply StronglySorted_inv in H2 as [H2 _]. exact H2.
    + intros k. specialize (Hf k). simpl in Hf.
      destruct (sortKey mode x =? k)%float; congruence.
Qed.

(** Hence every stable sort by the callback returns the ranking. *)
Lemma rank_characterised l l' :
  StronglySorted (key_le mode) l' ->
  (forall k, List.filter (fun a => (sortKey mode a =? k)%float) l'
             = List.filter (fun a => (sortKey mode a =? k)%float) l) ->
  l' = rank mode l.
Proof.
  intros Hs Hf. apply stable_sorted_unique; [exact Hs | apply rank_sorted |].
  intros k. rewrite filter_rank. apply Hf.
Qed.

End Sorting.

(** ** The ranking claims *)

Lemma sortKey_keyField mode a : sortKey mode a = or_zero (keyField mode a).
Proof. destruct mode; reflexivity. Qed.

(** C8. The ranking is ordered by the key the mode selects, [averageDistance]
    for [average] and [cumulativeDistance] otherwise, a missing value (and a
    NaN) counting as 0: keys never decrease along the result, and anchors
    whose keys are equal keep the order they had in the input. *)
Theorem rank_sorted_stable mode xs :
  (forall a,
     (keyField mode a = None -> sortKey mode a = 0%float)
     /\ (forall v, keyField mode a = Some v ->
           if is_nan v then sortKey mode a = 0%float
           else (v =? sortKey mode a)%float = true))
  /\ StronglySorted (key_le mode) (rank mode xs)
  /\ (forall k,
        List.filter (fun a => (sortKey mode a =? k)%float) (rank mode xs)
        = List.filter (fun a => (sortKey mode a =? k)%float) xs).
Proof.
  split; [| split].
  - intros a. rewrite sortKey_keyField. split.
    + intros ->. reflexivity.
    + intros v ->. simpl. destruct (is_nan v) eqn:Hn; simpl; [reflexivity |].
      destruct (PrimFloat.is_zero v) eqn:Hz; [exact Hz |].
      unfold is_nan in Hn. destruct (v =? v)%float; [reflexivity | discriminate].
  - apply rank_sorted.
  - intros k. apply filter_rank.
Qed.

(** C9. Ranking a ranked sequence again changes nothing. *)
Theorem rank_idempotent mode xs : rank mode (rank mode xs) = rank mode xs.
Proof. apply rank_of_sorted, rank_sorted. Qed.

(** C10. The sort of [PlacesToStayDisplay] always completes on the array of
    anchors, whatever their derived fields: it leaves the input array, and
    every other array of the store, as they were, and returns a fresh array
    holding a permutation of the input anchors, each anchor unchanged. *)
Theorem sortedPlacesToStay_pure_total mode (h : heap) r xs :
  h !! r = Some xs ->
  exists h' r',
    sortedPlacesToStay mode h r = Some (h', r')
    /\ h !! r' = None
    /\ h' !! r = Some xs
    /\ (forall q, q <> r' -> h' !! q = h !! q)
    /\ h' !! r' = Some (rank mode xs)
    /\ rank mode xs ≡ₚ xs.
Proof.
  intros Hr. unfold sortedPlacesToStay, spread, sort_in_place. rewrite Hr.
  set (r' := fresh (dom h)).
  assert (Hfresh : h !! r' = None).
  { apply not_elem_of_dom. apply is_fresh. }
  rewrite lookup_insert_eq.
  exists (<[r' := Array_sort (compareFn mode) xs]> (<[r' := xs]> h)), r'.
  split; [reflexivity |]. split; [exact Hfresh |].
  assert (Hne : r' <> r) by congruence.
  split; [rewrite !lookup_insert_ne by exact Hne; exact Hr |].
  split; [intros q Hq; rewrite !lookup_insert_ne by congruence; reflexivity |].
  split; [apply lookup_insert_eq | apply rank_perm].
Qed.

Lemma sortedPlacesToStay_pure_total_witness :
  exists h' r',
    sortedPlacesToStay average ranked_heap 0 = Some (h', r')
    /\ ranked_heap !! r' = None
    /\ h' !! 0%nat = Some ranked_input
    /\ (forall q, q <> r' -> h' !! q = ranked_heap !! q)
    /\ h' !! r' = Some (rank average ranked_input)
    /\ rank average ranked_input ≡ₚ ranked_input.
Proof. apply sortedPlacesToStay_pure_total. reflexivity. Defined.

(** * Further properties of the aggregation *)

Lemma allLocations_rebuiltAll st body :
  allLocations (setPlacesToStay (rebuiltAll st body) st) = allLocations st.
Proof.
  unfold allLocations. simpl. f_equal. unfold rebuiltAll.
  apply list_eq. intros i. rewrite !list_lookup_fmap, list_lookup_imap.
  destruct (placesToStay st !! i); reflexivity.
Qed.

Lemma request_rebuiltAll st body :
  request (setPlacesToStay (rebuiltAll st body) st) = request st.
Proof. unfold request. rewrite allLocations_rebuiltAll. reflexivity. Qed.

Lemma rebuiltAll_again st body :
  rebuiltAll (setPlacesToStay (rebuiltAll st body) st) body = rebuiltAll st body.
Proof.
  unfold rebuiltAll. cbn [placesToStay pointsOfInterest setPlacesToStay].
  rewrite length_imap. apply list_eq. intros i. rewrite !list_lookup_imap.
  destruct (placesToStay st !! i); reflexivity.
Qed.

(** What [calculateDistances] leaves in the state: the input state, or
    the anchors rebuilt from a body the provider answered with status 200. *)
Lemma calculateDistances_cases send st :
  fst (calculateDistances send st) = st
  \/ exists body,
       send (request st) = SendResolved 200 body
       /\ placesToStay st <> [] /\ pointsOfInterest st <> []
       /\ (forall i, (i < length (placesToStay st))%nat ->
             is_Some (distancesOf body !! i) /\ is_Some (durationsOf body !! i))
       /\ fst (calculateDistances send st) = setPlacesToStay (rebuiltAll st body) st.
Proof.
  unfold calculateDistances.
  destruct ((length (placesToStay st) =? 0)%nat || (length (pointsOfInterest st) =? 0)%nat)
    eqn:G; [left; reflexivity |].
  apply orb_false_elim in G as [Gp Gt].
  apply Nat.eqb_neq in Gp, Gt.
  destruct (aggregate send st) as [log [ps' | e]] eqn:Hagg; [| left; reflexivity].
  right. apply aggregate_Ok_eq in Hagg as (body & Hsend & _ & -> & Hrows).
  assert (Hp : placesToStay st <> []) by (intros E; rewrite E in Gp; exact (Gp eq_refl)).
  assert (Ht : pointsOfInterest st <> []) by (intros E; rewrite E in Gt; exact (Gt eq_refl)).
  exists body. repeat split; auto; apply Hrows; auto.
Qed.

(** X1. Running [calculateDistances] again on the state it left, with a
    provider that answers the same request in the same way, changes
    nothing: the derived fields depend on the response only, not on the
    values they replace. *)
Theorem calculateDistances_idempotent send st :
  fst (calculateDistances send (fst (calculateDistances send st)))
  = fst (calculateDistances send st).
Proof.
  destruct (calculateDistances_cases send st)
    as [E | (body & Hsend & Hp & Ht & Hrows & E)]; rewrite E; [exact E |].
  unfold calculateDistances at 1. simpl placesToStay. simpl pointsOfInterest.
  rewrite nonempty_guard; [| | exact Ht].
  2: { intros E0. apply (f_equal length) in E0. unfold rebuiltAll in E0.
       rewrite length_imap in E0. destruct (placesToStay st); [congruence | discriminate]. }
  rewrite (aggregate_Ok_intro send _ body).
  - fold (rebuiltAll (setPlacesToStay (rebuiltAll st body) st) body).
    rewrite rebuiltAll_again. reflexivity.
  - rewrite request_rebuiltAll. exact Hsend.
  - intros _ i Hi. apply Hrows. simpl in Hi. unfold rebuiltAll in Hi.
    rewrite length_imap in Hi. exact Hi.
Qed.



(** The fields [calculateDistances] never writes. *)
Lemma calculateDistances_keeps send st :
  pointsOfInterest (fst (calculateDistances send st)) = pointsOfInterest st
  /\ distanceMode (fst (calculateDistances send st)) = distanceMode st
  /\ clearDerived <$> placesToStay (fst (calculateDistances send st))
     = clearDerived <$> placesToStay st.
Proof.
  destruct (calculateDistances_cases send st)
    as [E | (body & _ & _ & _ & _ & E)]; rewrite E; simpl; [auto |].
  repeat split. unfold rebuiltAll. apply list_eq. intros i.
  rewrite !list_lookup_fmap, list_lookup_imap.
  destruct (placesToStay st !! i); reflexivity.
Qed.

Lemma calculateDistances_ids send st :
  PlaceToStay.id <$> placesToStay (fst (calculateDistances send st))
  = PlaceToStay.id <$> placesToStay st.
Proof.
  destruct (calculateDistances_keeps send st) as (_ & _ & H).
  apply (f_equal (fmap PlaceToStay.id)) in H.
  rewrite <- !list_fmap_compose in H. exact H.
Qed.


(** * Links and names *)

Lemma prefix_nil s : String.prefix "" s = true.
Proof. destruct s; reflexivity. Qed.

Lemma prefix_append a b : String.prefix a (String.append a b) = true.
Proof.
  induction a as [| c a IH]; simpl; [apply prefix_nil |].
  destruct (Ascii.ascii_dec c c); [exact IH | congruence].
Qed.




Lemma substring_0_all n : forall s, (String.length s <= n)%nat -> String.substring 0 n s = s.
Proof.
  induction n as [| n IH]; intros s H; destruct s as [| c s]; simpl in *; try reflexivity.
  - lia.
  - rewrite IH by lia. reflexivity.
Qed.

Lemma ensureHttpsProtocol_has_protocol_aux url :
  (url = "" /\ ensureHttpsProtocol url = "")
  \/ String.prefix "http://" (ensureHttpsProtocol url)
     || String.prefix "https://" (ensureHttpsProtocol url) = true.
Proof.
  unfold ensureHttpsProtocol.
  destruct (String.eqb url "") eqn:E.
  - left. apply String.eqb_eq in E. auto.
  - right. destruct (String.prefix "http://" url || String.prefix "https://" url) eqn:P.
    + exact P.
    + rewrite (prefix_append "https://" url). apply orb_true_r.
Qed.


(** X3. A link target built by [ensureHttpsProtocol] is empty only for an
    empty url, and otherwise starts with [http://] or [https://]; it is the
    url itself or the url behind [https://]. *)
Theorem ensureHttpsProtocol_has_protocol url :
  (url = "" /\ ensureHttpsProtocol url = "")
  \/ (url <> ""
      /\ String.prefix "http://" (ensureHttpsProtocol url)
         || String.prefix "https://" (ensureHttpsProtocol url) = true
      /\ (ensureHttpsProtocol url = url
          \/ ensureHttpsProtocol url = String.append "https://" url)).
Proof.
  unfold ensureHttpsProtocol.
  destruct (String.eqb url "") eqn:E.
  - left. apply String.eqb_eq in E. auto.
  - right. apply String.eqb_neq in E. split; [exact E |].
    destruct (String.prefix "http://" url || String.prefix "https://" url) eqn:P.
    + split; [exact P | left; reflexivity].
    + split; [| right; reflexivity].
      rewrite (prefix_append "https://" url). apply orb_true_r.
Qed.

Lemma ensureHttpsProtocol_fixed url :
  String.prefix "http://" url || String.prefix "https://" url = true ->
  ensureHttpsProtocol url = url.
Proof.
  intros P. unfold ensureHttpsProtocol. rewrite P. destruct (String.eqb url ""); reflexivity.
Qed.

(** X4. [ensureHttpsProtocol] is idempotent: a url that went through it is
    not prefixed again. *)
Theorem ensureHttpsProtocol_idempotent url :
  ensureHttpsProtocol (ensureHttpsProtocol url) = ensureHttpsProtocol url.
Proof.
  destruct (ensureHttpsProtocol_has_protocol_aux url) as [[-> ->] | P].
  - reflexivity.
  - apply ensureHttpsProtocol_fixed. exact P.
Qed.






(** * Further properties of the ranking and of the details *)

Lemma sort_insert_fmap mode (f : PlaceToStay.t -> PlaceToStay.t) x l :
  (forall a, sortKey mode (f a) = sortKey mode a) ->
  sort_insert (compareFn mode) (f x) (f <$> l) = f <$> sort_insert (compareFn mode) x l.
Proof.
  intros Hf. induction l as [| y l IH]; [reflexivity |].
  rewrite fmap_cons, !sort_insert_cons, !Hf.
  destruct (sortKey mode y <? sortKey mode x)%float; [| reflexivity].
  rewrite fmap_cons, IH. reflexivity.
Qed.

(** The ranking reads nothing but the keys. *)
Lemma rank_fmap mode (f : PlaceToStay.t -> PlaceToStay.t) l :
  (forall a, sortKey mode (f a) = sortKey mode a) ->
  rank mode (f <$> l) = f <$> rank mode l.
Proof.
  intros Hf. induction l as [| x l IH]; [reflexivity |].
  unfold rank, Array_sort in *. rewrite fmap_cons. simpl foldr.
  rewrite IH. apply sort_insert_fmap. exact Hf.
Qed.

Lemma sortKey_spreadPlace mode place updates :
  PartialPlaceToStay.averageDistance updates = None ->
  PartialPlaceToStay.cumulativeDistance updates = None ->
  sortKey mode (spreadPlace place updates) = sortKey mode place.
Proof. intros Ha Hc. destruct mode; simpl; rewrite ?Ha, ?Hc; reflexivity. Qed.

(** X8. Editing commutes with ranking: an update that carries neither
    [averageDistance] nor [cumulativeDistance], as those of the edit form
    do, leaves every anchor at its rank. *)
Theorem rank_updatePlaceToStay mode id updates places :
  PartialPlaceToStay.averageDistance updates = None ->
  PartialPlaceToStay.cumulativeDistance updates = None ->
  rank mode (updatePlaceToStay id updates places)
  = updatePlaceToStay id updates (rank mode places).
Proof.
  intros Ha Hc. unfold updatePlaceToStay. apply rank_fmap. intros a.
  destruct (String.eqb (PlaceToStay.id a) id); [| reflexivity].
  apply sortKey_spreadPlace; assumption.
Qed.

Lemma rank_updatePlaceToStay_witness :
  rank average (updatePlaceToStay "near1" (placeEdits "Hotel" (Some "quiet") None) ranked_input)
  = updatePlaceToStay "near1" (placeEdits "Hotel" (Some "quiet") None)
      (rank average ranked_input).
Proof. apply rank_updatePlaceToStay; reflexivity. Defined.

Lemma StronglySorted_lookup {A} (R : A -> A -> Prop) l :
  StronglySorted R l ->
  forall i j a b, (i < j)%nat -> l !! i = Some a -> l !! j = Some b -> R a b.
Proof.
  induction 1 as [| x l Hs IH Hx]; intros i j a b Hij Hi Hj.
  - rewrite lookup_nil in Hi. discriminate.
  - destruct j as [| j]; [lia |]. simpl in Hj. destruct i as [| i]; simpl in Hi.
    + injection Hi as <-. rewrite Forall_forall in Hx. apply Hx.
      apply list_elem_of_lookup. eauto.
    + apply (IH i j); [lia | exact Hi | exact Hj].
Qed.

(** X12. An anchor that was never aggregated (its key field is missing)
    stands in the ranking before every anchor whose key is positive. *)
Theorem rank_unaggregated_first mode xs i j a b :
  rank mode xs !! i = Some a -> rank mode xs !! j = Some b ->
  keyField mode a = None ->
  (0 <? sortKey mode b)%float = true ->
  (i < j)%nat.
Proof.
  intros Hi Hj Ha Hb.
  assert (Hka : sortKey mode a = 0%float).
  { rewrite sortKey_keyField, Ha. reflexivity. }
  destruct (Nat.lt_trichotomy i j) as [Hlt | [-> | Hgt]]; [exact Hlt | |]; exfalso.
  - rewrite Hi in Hj. injection Hj as ->. rewrite Hka in Hb. discriminate.
  - pose proof (StronglySorted_lookup _ _ (rank_sorted mode xs) j i b a Hgt Hj Hi) as Hle.
    unfold key_le in Hle. rewrite Hka in Hle.
    rewrite F64.leb_ltb in Hle by (try apply sortKey_not_nan; reflexivity).
    rewrite Hb in Hle. discriminate.
Qed.

Lemma rank_unaggregated_first_witness :
  rank average ranked_input !! 0%nat = Some (anchor "new")
  /\ rank average ranked_input !! 3%nat = Some (aggregated "far" 2.5%float 5%float)
  /\ (0 < 3)%nat.
Proof.
  split; [reflexivity | split; [reflexivity |]].
  apply (rank_unaggregated_first average ranked_input 0 3
           (anchor "new") (aggregated "far" 2.5%float 5%float)); reflexivity.
Defined.




(** * The list handlers *)

(** ** What the handlers keep of the lists *)

Lemma updatePOI_ids id name note url pois :
  PointOfInterest.id <$>
    updatePOI id {| PartialPointOfInterest.id := None;
                    PartialPointOfInterest.name := name;
                    PartialPointOfInterest.location := None;
                    PartialPointOfInterest.note := note;
                    PartialPointOfInterest.url := url |} pois
  = PointOfInterest.id <$> pois.
Proof.
  unfold updatePOI. rewrite <- list_fmap_compose. apply list_fmap_ext.
  intros i poi _. simpl. destruct (String.eqb (PointOfInterest.id poi) id); reflexivity.
Qed.

Lemma updatePOI_locations id name note url pois :
  PointOfInterest.location <$>
    updatePOI id {| PartialPointOfInterest.id := None;
                    PartialPointOfInterest.name := name;
                    PartialPointOfInterest.location := None;
                    PartialPointOfInterest.note := note;
                    PartialPointOfInterest.url := url |} pois
  = PointOfInterest.location <$> pois.
Proof.
  unfold updatePOI. rewrite <- list_fmap_compose. apply list_fmap_ext.
  intros i poi _. simpl. destruct (String.eqb (PointOfInterest.id poi) id); reflexivity.
Qed.

Lemma updatePlaceToStay_ids id name note url places :
  PlaceToStay.id <$> updatePlaceToStay id (placeEdits name note url) places
  = PlaceToStay.id <$> places.
Proof.
  unfold updatePlaceToStay. rewrite <- list_fmap_compose. apply list_fmap_ext.
  intros i p _. simpl. destruct (String.eqb (PlaceToStay.id p) id); reflexivity.
Qed.

Lemma updatePlaceToStay_locations id name note url places :
  PlaceToStay.location <$> updatePlaceToStay id (placeEdits name note url) places
  = PlaceToStay.location <$> places.
Proof.
  unfold updatePlaceToStay. rewrite <- list_fmap_compose. apply list_fmap_ext.
  intros i p _. simpl. destruct (String.eqb (PlaceToStay.id p) id); reflexivity.
Qed.

Lemma updatePlaceToStay_derived id name note url places :
  derivedFields <$> updatePlaceToStay id (placeEdits name note url) places
  = derivedFields <$> places.
Proof.
  unfold updatePlaceToStay. rewrite <- list_fmap_compose. apply list_fmap_ext.
  intros i p _. simpl. destruct (String.eqb (PlaceToStay.id p) id); reflexivity.
Qed.

Lemma request_ext st st' :
  transportProfile st' = transportProfile st ->
  PlaceToStay.location <$> placesToStay st' = PlaceToStay.location <$> placesToStay st ->
  PointOfInterest.location <$> pointsOfInterest st'
    = PointOfInterest.location <$> pointsOfInterest st ->
  request st' = request st.
Proof.
  intros Hp Hl Ht. unfold request, allLocations. rewrite Hp. f_equal. f_equal.
  assert (E1 : forall l : list PlaceToStay.t,
             (fun place => coordinates (PlaceToStay.location place)) <$> l
             = coordinates <$> (PlaceToStay.location <$> l))
    by (intros l; rewrite <- list_fmap_compose; reflexivity).
  assert (E2 : forall l : list PointOfInterest.t,
             (fun poi => coordinates (PointOfInterest.location poi)) <$> l
             = coordinates <$> (PointOfInterest.location <$> l))
    by (intros l; rewrite <- list_fmap_compose; reflexivity).
  rewrite !E1, !E2, Hl, Ht. reflexivity.
Qed.

(** X9. Saving the edit form of a target or of an anchor changes neither
    the request the aggregation would send (profile and coordinates, in
    order), nor the ids of the targets, nor any derived field of any anchor:
    the cached distances stay those of the same request. *)
Theorem save_keeps_request_and_cache nameValue noteValue urlValue poi place ui :
  let ui1 := savePOI nameValue noteValue urlValue poi ui in
  let ui2 := savePlace nameValue noteValue urlValue place ui in
  request (ui_app ui1) = request (ui_app ui)
  /\ PointOfInterest.id <$> pointsOfInterest (ui_app ui1)
     = PointOfInterest.id <$> pointsOfInterest (ui_app ui)
  /\ placesToStay (ui_app ui1) = placesToStay (ui_app ui)
  /\ request (ui_app ui2) = request (ui_app ui)
  /\ pointsOfInterest (ui_app ui2) = pointsOfInterest (ui_app ui)
  /\ PlaceToStay.id <$> placesToStay (ui_app ui2) = PlaceToStay.id <$> placesToStay (ui_app ui)
  /\ derivedFields <$> placesToStay (ui_app ui2) = derivedFields <$> placesToStay (ui_app ui).
Proof.
  simpl. repeat split.
  - apply request_ext; simpl; [reflexivity | reflexivity | apply updatePOI_locations].
  - apply updatePOI_ids.
  - apply request_ext; simpl; [reflexivity | apply updatePlaceToStay_locations | reflexivity].
  - apply updatePlaceToStay_ids.
  - apply updatePlaceToStay_derived.
Qed.

(** ** The selection *)






(** X7. [removePOI] removes every target carrying the id and never touches
    the selection: after the selected target is removed, [selectedPOI] still
    holds its id, which no target of the list carries any more. *)
Theorem removePOI_leaves_selection id ui :
  selectedPOI ui = Some id ->
  selectedPOI (removePOI true id ui) = Some id
  /\ forall poi, poi ∈ pointsOfInterest (ui_app (removePOI true id ui)) ->
       poi ∈ pointsOfInterest (ui_app ui) /\ PointOfInterest.id poi <> id.
Proof.
  intros Hsel. split; [exact Hsel |].
  intros poi Hin. simpl in Hin. apply list_elem_of_In, filter_In in Hin as [Hin Hne].
  split; [apply list_elem_of_In; exact Hin |].
  apply negb_true_iff, String.eqb_neq in Hne. exact Hne.
Qed.

Lemma removePOI_leaves_selection_witness :
  selectedPOI (removePOI true "T1" stale_ui) = Some "T1"
  /\ forall poi, poi ∈ pointsOfInterest (ui_app (removePOI true "T1" stale_ui)) ->
       poi ∈ pointsOfInterest (ui_app stale_ui) /\ PointOfInterest.id poi <> "T1".
Proof. apply removePOI_leaves_selection. reflexivity. Defined.

(** ** Names *)












(** ** Ids *)

Lemma NoDup_fmap_filter {A B} `{EqDecision B} (f : A -> B) (g : A -> bool) l :
  NoDup (f <$> l) -> NoDup (f <$> List.filter g l).
Proof.
  induction l as [| x l IH]; simpl; [auto |].
  intros H. apply NoDup_cons in H as [Hx Hl].
  destruct (g x); [| apply IH; exact Hl].
  rewrite fmap_cons. apply NoDup_cons. split; [| apply IH; exact Hl].
  intros Hin. apply Hx. apply list_elem_of_fmap in Hin as (y & -> & Hy).
  apply list_elem_of_fmap. exists y. split; [reflexivity |].
  apply list_elem_of_In, filter_In in Hy as [Hy _]. apply list_elem_of_In. exact Hy.
Qed.

Lemma NoDup_snoc_fresh {A} (l : list A) x : NoDup l -> x ∉ l -> NoDup (l ++ [x]).
Proof.
  intros Hl Hx. apply NoDup_app. split; [exact Hl |]. split.
  - intros y Hy Hin. apply list_elem_of_singleton in Hin as ->. contradiction.
  - apply NoDup_singleton.
Qed.

(** X11. Ids stay unique: when no two targets and no two anchors share an
    id, this still holds after any event of [Action], provided the id an [Add] brings
    ([crypto.randomUUID()]) is new to the list it extends.  Removing, saving
    and recalculating never change or duplicate an id. *)
Theorem ids_unique_preserved a ui :
  ids_unique ui -> brings_fresh_id a ui -> ids_unique (act a ui).
Proof.
  intros [Ht Hp] Hfresh.
  destruct a as [newId | newId | lng lat found type newId | confirm i
                | confirm i | nv tv uv i | nv tv uv i | i | i | m | p | send];
    simpl in *.
  - unfold addPointOfInterest. destruct (searchedLocation ui) as [l |]; [| split; assumption].
    split; [| exact Hp]. simpl. rewrite fmap_app. apply NoDup_snoc_fresh; assumption.
  - unfold addPlaceToStay. destruct (searchedLocation ui) as [l |]; [| split; assumption].
    split; [exact Ht |]. simpl. rewrite fmap_app. apply NoDup_snoc_fresh; assumption.
  - destruct type; split; simpl; try assumption;
      rewrite fmap_app; apply NoDup_snoc_fresh; assumption.
  - destruct (pointsOfInterest (ui_app ui) !! i); [| split; assumption].
    unfold removePOI. destruct confirm; [| split; assumption].
    split; [| exact Hp]. simpl. apply NoDup_fmap_filter. exact Ht.
  - destruct (displayedPlaces ui !! i); [| split; assumption].
    unfold removePlaceToStay. destruct confirm; [| split; assumption].
    split; [exact Ht |]. simpl. apply NoDup_fmap_filter. exact Hp.
  - destruct (pointsOfInterest (ui_app ui) !! i) as [poi |]; [| split; assumption].
    split; [| exact Hp]. simpl. rewrite updatePOI_ids. exact Ht.
  - destruct (displayedPlaces ui !! i) as [place |]; [| split; assumption].
    split; [exact Ht |]. simpl. rewrite updatePlaceToStay_ids. exact Hp.
  - destruct (pointsOfInterest (ui_app ui) !! i); split; assumption.
  - destruct (displayedPlaces ui !! i); split; assumption.
  - split; assumption.
  - split; assumption.
  - destruct (calculateDistances_keeps send (ui_app ui)) as (Hpois & _ & _).
    split; simpl.
    + rewrite Hpois. exact Ht.
    + rewrite calculateDistances_ids. exact Hp.
Qed.

Lemma ids_unique_preserved_witness :
  ids_unique (act (AddPlaceToStay "C") stale_ui).
Proof.
  apply ids_unique_preserved.
  - split; simpl.
    + apply NoDup_singleton.
    + apply NoDup_cons. split; [| apply NoDup_singleton].
      intros H. apply list_elem_of_singleton in H. discriminate.
  - simpl. intros H. apply elem_of_cons in H as [H | H]; [discriminate |].
    apply list_elem_of_singleton in H. discriminate.
Defined.
